(** * vaultsync: a shallow embedding of the secret distribution agent

    The Go package [vaultsync] authenticates against a secret store,
    keeps the authentication lease alive, and periodically re-reads every
    registered secret path, pushing each field to the receivers registered
    for that path.

    The embedding follows the source function by function.

    - Calls into external packages (os, hclsimple, the vault client) take
      their results from an environment record [Env].
    - Everything a call does to the outside world is recorded, in program
      order, in a trace of [Event]s; receivers are called back through
      [EvUpdateSecret] events.
    - Run-time panics (nil dereference, failed type assertion) are an
      explicit outcome, and so is a goroutine still waiting in [select].
    - What the Go runtime chooses is an input: the order in which [range]
      walks the receiver map, the [select] case taken at each iteration,
      and, for the timing properties, the clock reading of each event.
    - [renew_secrets_period] is an [int64]; its conversion to a duration
      wraps around as Go's multiplication does.
    - The logger options ([WithLogger], [WithLogLevel]) only change where
      log lines go and are left out; log calls appear as [EvLog]. *)

From stdpp Require Import numbers strings list gmap.


Local Open Scope string_scope.
Local Open Scope list_scope.
Local Open Scope Z_scope.

(* ===================================================================== *)
(** ** Go primitives *)
(* ===================================================================== *)

Module Go.

(** [int64] arithmetic wraps around silently. *)
Definition int64_min : Z := - 2 ^ 63.
Definition int64_max : Z := 2 ^ 63 - 1.

Definition in_int64 (z : Z) : Prop := int64_min <= z <= int64_max.

Definition int64_wrap (z : Z) : Z := (z + 2 ^ 63) mod 2 ^ 64 - 2 ^ 63.

Definition int64_mul (a b : Z) : Z := int64_wrap (a * b).

(** [error]: the message of a non-nil error; a nil error is [None]. *)
Definition error : Type := string.

(** [interface{}] values as they arrive from the store. *)
#[local] Set Warnings "-register-all".
Inductive value : Type :=
| VNil
| VString (s : string)
| VNumber (z : Z)
| VBool (b : bool)
| VSlice (l : list value)
| VMap (m : list (string * value)).

(** How a call ends: it returns, it panics, or it is still waiting in a
    [select] when the observed schedule ends. *)
Inductive outcome (A : Type) : Type :=
| Returned (a : A)
| Panicked (msg : string)
| Blocked.

Arguments Returned {A} a.
Arguments Panicked {A} msg.
Arguments Blocked {A}.

Definition nil_deref : string :=
  "invalid memory address or nil pointer dereference".
Definition bad_assert : string :=
  "interface conversion: interface {} is not map[string]interface {}".

End Go.

Export Go.

(** [time.Second], in nanoseconds. *)
Module time.
Definition Second : Z := 1000000000.
(** [time.Duration(x) * time.Second] on [int64]. *)
Definition seconds (x : Z) : Z := int64_mul x Second.
End time.

(* ===================================================================== *)
(** ** Data model *)
(* ===================================================================== *)

(** A [SecretReceiver] interface value, identified by its handle. *)
Definition SecretReceiver : Type := nat.

Record vaultConfig : Type := {
  Server : string;
  AuthMethod : string;
  Username : string;
  Password : string;
  RenewSecretsPeriod : Z
}.

Record config : Type := { Vault : vaultConfig }.

Record SecretSync : Type := {
  receivers : gmap string (list SecretReceiver)
}.

(** [AgentOpts]; the logger fields are left out, log calls appear in the
    trace. *)
Record AgentOpts : Type := { configFile : string }.

Definition AgentOptFunc : Type := AgentOpts -> AgentOpts.

(** The vault client types the agent holds. *)
Record SecretAuth : Type := {
  ClientToken : string;
  LeaseDuration : Z
}.

Record Secret : Type := {
  Data : gmap string value;
  Auth : option SecretAuth
}.

Record Client : Type := {
  Address : string;
  Token : string
}.

Inductive AuthHandle : Type :=
| AppRoleAuth (roleID secretID : string)
| LDAPAuth (username password : string)
| UserpassAuth (username password : string).

Record RenewOutput : Type := { RenewedSecret : option Secret }.

(** Pointer fields are options: [None] is the nil pointer. *)
Record Agent : Type := {
  opts : AgentOpts;
  cfg : option config;
  client : option Client;
  secret : option Secret;
  secretSync : SecretSync
}.

Definition set_opts (a : Agent) (o : AgentOpts) : Agent :=
  {| opts := o; cfg := cfg a; client := client a; secret := secret a;
     secretSync := secretSync a |}.
Definition set_cfg (a : Agent) (c : option config) : Agent :=
  {| opts := opts a; cfg := c; client := client a; secret := secret a;
     secretSync := secretSync a |}.
Definition set_client (a : Agent) (c : option Client) : Agent :=
  {| opts := opts a; cfg := cfg a; client := c; secret := secret a;
     secretSync := secretSync a |}.
Definition set_secret (a : Agent) (s : option Secret) : Agent :=
  {| opts := opts a; cfg := cfg a; client := client a; secret := s;
     secretSync := secretSync a |}.
Definition set_receivers (a : Agent) (m : gmap string (list SecretReceiver))
  : Agent :=
  {| opts := opts a; cfg := cfg a; client := client a; secret := secret a;
     secretSync := {| receivers := m |} |}.

(* ===================================================================== *)
(** ** Observable events *)
(* ===================================================================== *)

Inductive Goroutine : Type :=
| GoRenewAuthToken
| GoRenewSecrets
| GoWatcherStart.

Inductive Event : Type :=
| EvLog (level fn detail : string)
| EvStat (filename : string)
| EvDecodeFile (filename : string)
| EvNewClient (address : string)
| EvNewAuth (method user : string)
| EvLogin (method : string)
| EvTokenID
| EvSetToken (token : string)
| EvRead (path : string)
| EvUpdateSecret (r : SecretReceiver) (id fieldName : string) (v : value)
| EvWgAdd (n : Z)
| EvWgDone
| EvGo (g : Goroutine)
| EvNewWatcher
| EvWatcherStop
| EvNewTimer (d : Z)
| EvTimerC
| EvTimerReset (d : Z)
| EvCtxDone
| EvWatcherDone
| EvWatcherRenew.

(* ===================================================================== *)
(** ** The effect monad: emitted events, a read counter, and panics *)
(* ===================================================================== *)

(** A computation starts with the number of store reads done so far and
    yields how it ended, the events it emitted in program order, and the
    new number of reads. *)
Definition M (A : Type) : Type := nat -> outcome A * list Event * nat.

Definition outcome_of {A} (r : outcome A * list Event * nat) : outcome A :=
  r.1.1.
Definition trace_of {A} (r : outcome A * list Event * nat) : list Event :=
  r.1.2.

Definition ret {A} (a : A) : M A := fun n => (Returned a, [], n).

Definition bind {A B} (m : M A) (k : A -> M B) : M B :=
  fun n =>
    match m n with
    | (Returned a, t, n') =>
        match k a n' with
        | (r, t', n'') => (r, t ++ t', n'')
        end
    | (Panicked msg, t, n') => (Panicked msg, t, n')
    | (Blocked, t, n') => (Blocked, t, n')
    end.

Notation "x <- m ;; k" := (bind m (fun x => k))
  (at level 100, m at next level, right associativity).
Notation "m ;;; k" := (bind m (fun _ => k))
  (at level 100, right associativity).

Definition emit (e : Event) : M unit := fun n => (Returned tt, [e], n).

Definition panic {A} (msg : string) : M A := fun n => (Panicked msg, [], n).

Definition blocked {A} : M A := fun n => (Blocked, [], n).

(** [defer d; body]: [d] runs when [body] returns and when it panics. *)
Definition with_defer {A} (d : M unit) (body : M A) : M A :=
  fun n =>
    match body n with
    | (Blocked, t, n') => (Blocked, t, n')
    | (r, t, n') =>
        match d n' with
        | (_, t', n'') => (r, t ++ t', n'')
        end
    end.

(** [go f(...)]: the call runs on its own goroutine; what it returns is
    dropped by the [go] statement. *)
Definition go_stmt {A} (g : Goroutine) (body : M A) : M unit :=
  emit (EvGo g).

(** Dereference of a pointer field. *)
Definition deref {A} (p : option A) : M A :=
  match p with
  | Some x => ret x
  | None => panic nil_deref
  end.

Fixpoint for_each {A} (l : list A) (body : A -> M unit) : M unit :=
  match l with
  | [] => ret tt
  | x :: l' => body x ;;; for_each l' body
  end.

(* ===================================================================== *)
(** ** Receiver registry and dispatch *)
(* ===================================================================== *)

Definition newSecretSync : SecretSync := {| receivers := ∅ |}.

(** [a.secretSync.receivers[id]]: a missing key reads as the nil slice. *)
Definition receivers_at (a : Agent) (id : string) : list SecretReceiver :=
  default [] (receivers (secretSync a) !! id).

Definition RegisterUpdateSecret (a : Agent) (id : string)
    (receiver : SecretReceiver) : Agent :=
  set_receivers a
    (<[id := receivers_at a id ++ [receiver]]> (receivers (secretSync a))).

Definition setSecret (a : Agent) (id fieldName : string) (v : value)
  : M unit :=
  for_each (receivers_at a id)
    (fun receiver => emit (EvUpdateSecret receiver id fieldName v)).

(** The inner loop of [renewSecretPaths]: one [setSecret] per field. *)
Definition dispatch (a : Agent) (path : string)
    (fields : list (string * value)) : M unit :=
  for_each fields (fun kv => setSecret a path kv.1 kv.2).

(* ===================================================================== *)
(** ** The environment: external packages the agent calls *)
(* ===================================================================== *)

(** What [os.Stat] reports about a file name. *)
Inductive StatResult : Type :=
| StatOk
| StatNotExist
| StatError (e : error).

Definition os_IsNotExist (r : StatResult) : bool :=
  match r with
  | StatNotExist => true
  | _ => false
  end.

(** Go's [(result, error)] pairs are kept as pairs: either component may be
    nil ([None]).  [Logical_Read] is indexed by the number of reads done so
    far, so that the store may answer differently over time. *)
Record Env : Type := {
  os_Stat : string -> StatResult;
  hclsimple_DecodeFile : string -> config * option error;
  vault_NewClient : string -> option Client * option error;
  approle_NewAppRoleAuth : string -> string -> option AuthHandle * option error;
  ldap_NewLDAPAuth : string -> string -> option AuthHandle * option error;
  userpass_NewUserpassAuth :
    string -> string -> option AuthHandle * option error;
  Auth_Login : option Client -> option AuthHandle -> option Secret * option error;
  Secret_TokenID : option Secret -> string * option error;
  Client_NewLifetimeWatcher : option Client -> option Secret -> option error;
  Logical_Read : nat -> string -> option Secret * option error
}.

(** Which case a [select] statement takes is decided by the runtime; a
    schedule lists the cases taken, one per loop iteration. *)
Inductive AuthSelect : Type :=
| AuthCtxDone
| AuthDoneCh (err : option error)
| AuthRenewCh (info : RenewOutput).

(** A timer case also fixes the order in which [range] walks the receiver
    map during the pass it triggers. *)
Inductive SecretsSelect : Type :=
| SecretsCtxDone
| SecretsTimerC (order : list string).

Section AgentCode.

Context (env : Env).

(** *** Options *)

Definition defaultAgentOpts : AgentOpts :=
  {| configFile := "vault-config.hcl" |}.

Definition WithConfigFile (file : string) : AgentOptFunc :=
  fun _ => {| configFile := file |}.

(** *** loadConfig *)

Definition loadConfig (a : Agent) (filename : string)
  : M (Agent * option error) :=
  emit (EvStat filename) ;;;
  if os_IsNotExist (os_Stat env filename) then ret (a, None)
  else
    emit (EvDecodeFile filename) ;;;
    let r := hclsimple_DecodeFile env filename in
    ret (set_cfg a (Some r.1), r.2).

(** *** createVaultAgent *)

(** One arm of the [switch]: build the auth method, log in, log. *)
Definition login_case (a : Agent) (method : string)
    (newAuth : string -> string -> option AuthHandle * option error)
  : M (Agent * option error) :=
  c <- deref (cfg a) ;;
  emit (EvNewAuth method (Username (Vault c))) ;;;
  let r := newAuth (Username (Vault c)) (Password (Vault c)) in
  match r.2 with
  | Some err => ret (a, Some err)
  | None =>
      emit (EvLogin method) ;;;
      let l := Auth_Login env (client a) r.1 in
      let a' := set_secret a l.1 in
      match l.2 with
      | Some err => ret (a', Some err)
      | None =>
          emit (EvLog "INFO" "createVaultAgent" method) ;;;
          ret (a', None)
      end
  end.

Definition createVaultAgent (a : Agent) : M (Agent * option error) :=
  c <- deref (cfg a) ;;
  emit (EvNewClient (Server (Vault c))) ;;;
  let r := vault_NewClient env (Server (Vault c)) in
  let a1 := set_client a r.1 in
  match r.2 with
  | Some err => ret (a1, Some err)
  | None =>
      r2 <- (if String.eqb (AuthMethod (Vault c)) "approle" then
               login_case a1 "approle" (approle_NewAppRoleAuth env)
             else if String.eqb (AuthMethod (Vault c)) "ldap" then
               login_case a1 "ldap" (ldap_NewLDAPAuth env)
             else if String.eqb (AuthMethod (Vault c)) "userpass" then
               login_case a1 "userpass" (userpass_NewUserpassAuth env)
             else
               emit (EvLog "ERROR" "createVaultAgent"
                       "undefined vault authentication method") ;;;
               ret (a1, Some "undefined vault authentication method")) ;;
      match r2.2 with
      | Some err => ret (r2.1, Some err)
      | None =>
          let a2 := r2.1 in
          emit EvTokenID ;;;
          let t := Secret_TokenID env (secret a2) in
          match t.2 with
          | Some err => ret (a2, Some err)
          | None =>
              cl <- deref (client a2) ;;
              emit (EvSetToken t.1) ;;;
              ret (set_client a2
                     (Some {| Address := Address cl; Token := t.1 |}), None)
          end
      end
  end.

(** *** New *)

Definition New (fns : list AgentOptFunc) : M (option Agent * option error) :=
  let agentOpts := fold_left (fun o fn => fn o) fns defaultAgentOpts in
  let agent :=
    {| opts := agentOpts; cfg := None; client := None; secret := None;
       secretSync := newSecretSync |} in
  emit (EvLog "INFO" "NewAgent" (configFile (opts agent))) ;;;
  r <- loadConfig agent (configFile (opts agent)) ;;
  match r.2 with
  | Some err =>
      ret (None,
           Some ("failed to load configuration file "
                 +:+ configFile (opts agent) +:+ ":" +:+ err))
  | None =>
      emit (EvLog "DEBUG" "NewAgent" "config") ;;;
      r' <- createVaultAgent r.1 ;;
      match r'.2 with
      | Some err => ret (None, Some ("authentication failed:" +:+ err))
      | None => ret (Some r'.1, None)
      end
  end.

(** *** renewSecretPaths *)

Definition Logical_Read_call (path : string)
  : M (option Secret * option error) :=
  fun n => (Returned (Logical_Read env n path), [EvRead path], S n).

(** [order] is the order in which [range] visits the keys of the receiver
    map; the read error is dropped, the secret pointer is dereferenced and
    its ["data"] entry asserted to be a map. *)
Definition renewSecretPaths (a : Agent) (order : list string) : M unit :=
  for_each order (fun path =>
    r <- Logical_Read_call path ;;
    s <- deref r.1 ;;
    match Data s !! "data" with
    | Some (VMap fields) => dispatch a path fields
    | _ => panic bad_assert
    end ;;;
    c <- deref (cfg a) ;;
    emit (EvLog "INFO" "renewSecrets" path)).

(** *** renewAuthToken *)

Fixpoint renewAuthToken_loop (sched : list AuthSelect) : M (option error) :=
  match sched with
  | [] => blocked
  | AuthCtxDone :: _ =>
      emit EvCtxDone ;;;
      emit (EvLog "INFO" "renewAuthToken" "cancel") ;;;
      ret None
  | AuthDoneCh err :: _ =>
      emit EvWatcherDone ;;;
      emit (EvLog "INFO" "renewAuthToken" "renewal of auth token failed") ;;;
      ret err
  | AuthRenewCh info :: rest =>
      emit EvWatcherRenew ;;;
      s <- deref (RenewedSecret info) ;;
      au <- deref (Auth s) ;;
      emit (EvLog "INFO" "renewAuthToken" "renewed") ;;;
      renewAuthToken_loop rest
  end.

Definition renewAuthToken (a : Agent) (sched : list AuthSelect)
  : M (option error) :=
  with_defer (emit EvWgDone)
    (emit EvNewWatcher ;;;
     match Client_NewLifetimeWatcher env (client a) (secret a) with
     | Some err =>
         ret (Some ("unable to initialize auth token lifetime watcher: "
                    +:+ err))
     | None =>
         go_stmt GoWatcherStart (ret tt) ;;;
         with_defer (emit EvWatcherStop) (renewAuthToken_loop sched)
     end).

(** *** renewSecrets *)

Fixpoint renewSecrets_loop (a : Agent) (sleepDuration : Z)
    (sched : list SecretsSelect) : M (option error) :=
  match sched with
  | [] => blocked
  | SecretsCtxDone :: _ =>
      emit EvCtxDone ;;;
      emit (EvLog "INFO" "reneswSecrets" "cancel") ;;;
      ret None
  | SecretsTimerC order :: rest =>
      emit EvTimerC ;;;
      renewSecretPaths a order ;;;
      emit (EvTimerReset sleepDuration) ;;;
      renewSecrets_loop a sleepDuration rest
  end.

Definition renewSecrets (a : Agent) (sched : list SecretsSelect)
  : M (option error) :=
  with_defer (emit EvWgDone)
    (c <- deref (cfg a) ;;
     let sleepDuration := time.seconds (RenewSecretsPeriod (Vault c)) in
     emit (EvNewTimer sleepDuration) ;;;
     renewSecrets_loop a sleepDuration sched).

(** *** Run *)

Definition Run (a : Agent) (auth_sched : list AuthSelect)
    (secrets_sched : list SecretsSelect) (order : list string)
  : M (option error) :=
  emit (EvWgAdd 2) ;;;
  go_stmt GoRenewAuthToken (renewAuthToken a auth_sched) ;;;
  go_stmt GoRenewSecrets (renewSecrets a secrets_sched) ;;;
  renewSecretPaths a order ;;;
  ret None.

End AgentCode.

(* ===================================================================== *)
(** ** Observations on traces *)
(* ===================================================================== *)

(** The callbacks one [setSecret] call makes. *)
Definition setSecret_calls (a : Agent) (id fieldName : string) (v : value)
  : list Event :=
  (fun r => EvUpdateSecret r id fieldName v) <$> receivers_at a id.

(** The callbacks a dispatch of [fields] to [path] makes. *)
Definition dispatch_calls (a : Agent) (path : string)
    (fields : list (string * value)) : list Event :=
  fields ≫= (fun kv => setSecret_calls a path kv.1 kv.2).

(** The receivers called back for field [fieldName], in call order. *)
Definition calls_for (fieldName : string) (tr : list Event)
  : list SecretReceiver :=
  omap (fun e =>
          match e with
          | EvUpdateSecret r _ f _ =>
              if decide (f = fieldName) then Some r else None
          | _ => None
          end) tr.

(** Calls that reach the secret store over the network. *)
Definition network_call (e : Event) : bool :=
  match e with
  | EvLogin _ | EvRead _ => true
  | _ => false
  end.

(** The constructor the [switch] in [createVaultAgent] selects. *)
Definition auth_constructor (env : Env) (method : string)
  : option (string -> string -> option AuthHandle * option error) :=
  if String.eqb method "approle" then Some (approle_NewAppRoleAuth env)
  else if String.eqb method "ldap" then Some (ldap_NewLDAPAuth env)
  else if String.eqb method "userpass" then
    Some (userpass_NewUserpassAuth env)
  else None.

(** The options [New] ends up with. *)
Definition applied_opts (fns : list AgentOptFunc) : AgentOpts :=
  fold_left (fun o fn => fn o) fns defaultAgentOpts.

(** *** Timed traces

    The Go runtime decides when events happen.  A timed trace pairs each
    event of a goroutine with the monotonic clock reading (nanoseconds) at
    which it happens.  [runtime_ok] holds when the clock never goes back
    and every receive from the timer channel happens no earlier than the
    expiry of the latest [NewTimer] or [Reset] (a timer armed at [t] with
    duration [d] fires at [t + d] or later; at once when [d <= 0]). *)
Fixpoint runtime_ok (deadline : option Z) (now : Z) (tr : list (Z * Event))
  : bool :=
  match tr with
  | [] => true
  | (t, e) :: rest =>
      (now <=? t) &&
      match e with
      | EvNewTimer d | EvTimerReset d => runtime_ok (Some (t + d)) t rest
      | EvTimerC =>
          match deadline with
          | Some dl => (dl <=? t) && runtime_ok None t rest
          | None => false
          end
      | _ => runtime_ok deadline t rest
      end
  end.

(** When the pass that is running ends: the clock reading of the next
    [timer.Reset], unless another pass starts first. *)
Fixpoint pass_end (tr : list (Z * Event)) : option Z :=
  match tr with
  | [] => None
  | (t, EvTimerReset _) :: _ => Some t
  | (_, EvTimerC) :: _ => None
  | _ :: rest => pass_end rest
  end.

(** The periodic passes of a timed trace: start time, and end time when
    the pass completed. *)
Fixpoint pass_spans (tr : list (Z * Event)) : list (Z * option Z) :=
  match tr with
  | [] => []
  | (t, EvTimerC) :: rest => (t, pass_end rest) :: pass_spans rest
  | _ :: rest => pass_spans rest
  end.

(** Consecutive passes: the earlier one has ended before the later one
    starts, and the starts are at least [period] apart. *)
Definition passes_separated (period : Z) (spans : list (Z * option Z))
  : Prop :=
  forall (i : nat) s1 oe1 s2 oe2,
    spans !! i = Some (s1, oe1) ->
    spans !! S i = Some (s2, oe2) ->
    exists e1, oe1 = Some e1 /\ s1 <= e1 /\ e1 <= s2 /\ s1 + period <= s2.

(** What one iteration of the loop in [renewSecretPaths] amounts to, by
    cases on what the store answers. *)
Definition pass_step (env : Env) (a : Agent) (path : string) : M unit :=
  fun n =>
    match (Logical_Read env n path).1 with
    | None => (Panicked nil_deref, [EvRead path], S n)
    | Some s =>
        match Data s !! "data" with
        | Some (VMap fields) =>
            match cfg a with
            | Some _ =>
                (Returned tt,
                 EvRead path :: dispatch_calls a path fields
                   ++ [EvLog "INFO" "renewSecrets" path], S n)
            | None =>
                (Panicked nil_deref,
                 EvRead path :: dispatch_calls a path fields, S n)
            end
        | _ => (Panicked bad_assert, [EvRead path], S n)
        end
    end.

(** A store answer that lets a pass get through: a secret whose ["data"]
    entry is a map. *)
Definition readable (env : Env) (n : nat) (path : string)
    (fields : list (string * value)) : Prop :=
  exists s, (Logical_Read env n path).1 = Some s /\
            Data s !! "data" = Some (VMap fields).

(** Events on the refresh timer. *)
Definition timer_event (e : Event) : bool :=
  match e with
  | EvNewTimer _ | EvTimerC | EvTimerReset _ => true
  | _ => false
  end.

(** The durations the refresh timer is armed with, in order. *)
Definition timer_periods (tr : list Event) : list Z :=
  omap (fun e =>
          match e with
          | EvNewTimer d | EvTimerReset d => Some d
          | _ => None
          end) tr.

(** Events a refresh pass makes against the store and the receivers. *)
Definition pass_work (e : Event) : bool :=
  match e with
  | EvRead _ | EvUpdateSecret _ _ _ _ => true
  | _ => false
  end.

(** The shape of what the refresh loop does after creating its timer:
    every receive from the timer channel is followed by the events of one
    pass and then by the [Reset] that rearms the timer, unless the pass
    does not get through; outside passes the loop neither reads nor calls
    back. *)
Inductive loop_shape (d : Z) : list Event -> Prop :=
| shape_idle t :
    Forall (fun e => timer_event e = false /\ pass_work e = false) t ->
    loop_shape d t
| shape_pass t rest :
    Forall (fun e => timer_event e = false) t ->
    loop_shape d rest ->
    loop_shape d (EvTimerC :: t ++ EvTimerReset d :: rest)
| shape_broken t :
    Forall (fun e => timer_event e = false) t ->
    loop_shape d (EvTimerC :: t).

(** A stretch of a timed trace that leaves the timer alone. *)
Definition quiet (tt : list (Z * Event)) : Prop :=
  Forall (fun p => timer_event p.2 = false) tt.

(* ===================================================================== *)
(** ** Concrete environments used in examples *)
(* ===================================================================== *)

Module Ex.

Definition vcfg (method : string) (period : Z) : config :=
  {| Vault := {| Server := "http://localhost:8200"; AuthMethod := method;
                 Username := "go"; Password := "secret";
                 RenewSecretsPeriod := period |} |}.

Definition fields_xy : list (string * value) :=
  [("user", VString "alice"); ("password", VString "p1")].

Definition secret_xy : Secret :=
  {| Data := {[ "data" := VMap fields_xy ]}; Auth := None |}.

Definition login_secret : Secret :=
  {| Data := ∅;
     Auth := Some {| ClientToken := "s.token"; LeaseDuration := 3600 |} |}.

(** A reachable store holding one secret at ["secrets/data/x/y"]; reads of
    any other path fail, as they do when the store refuses them. *)
Definition env (method : string) (period : Z) : Env :=
  {| os_Stat := fun f =>
       if String.eqb f "config.hcl" then StatOk else StatNotExist;
     hclsimple_DecodeFile := fun _ => (vcfg method period, None);
     vault_NewClient := fun addr =>
       (Some {| Address := addr; Token := "" |}, None);
     approle_NewAppRoleAuth := fun u p => (Some (AppRoleAuth u p), None);
     ldap_NewLDAPAuth := fun u p => (Some (LDAPAuth u p), None);
     userpass_NewUserpassAuth := fun u p => (Some (UserpassAuth u p), None);
     Auth_Login := fun _ _ => (Some login_secret, None);
     Secret_TokenID := fun _ => ("s.token", None);
     Client_NewLifetimeWatcher := fun _ _ => None;
     Logical_Read := fun _ path =>
       if String.eqb path "secrets/data/x/y" then (Some secret_xy, None)
       else (None, Some "permission denied") |}.

(** The agent [New] builds in [env "userpass" period]. *)
Definition agent (period : Z) : Agent :=
  {| opts := {| configFile := "config.hcl" |};
     cfg := Some (vcfg "userpass" period);
     client := Some {| Address := "http://localhost:8200";
                       Token := "s.token" |};
     secret := Some login_secret;
     secretSync := newSecretSync |}.

(** Receivers 1 and 2 registered for the stored secret. *)
Definition agent_xy (period : Z) : Agent :=
  RegisterUpdateSecret
    (RegisterUpdateSecret (agent period) "secrets/data/x/y" 1%nat)
    "secrets/data/x/y" 2%nat.

(** As [agent_xy], with receiver 3 registered for a path whose read
    fails. *)
Definition agent_two_paths (period : Z) : Agent :=
  RegisterUpdateSecret (agent_xy period) "secrets/data/locked" 3%nat.

(** A period too large for a 64-bit count of nanoseconds. *)
Definition huge_period : Z := 9223372037.

(** One goroutine's clock readings for two refresh passes run back to
    back, a few nanoseconds apart. *)
Definition back_to_back : list (Z * Event) :=
  [(0, EvNewTimer (-9223372036709551616));
   (10, EvTimerC);
   (20, EvRead "secrets/data/x/y");
   (30, EvUpdateSecret 1%nat "secrets/data/x/y" "user" (VString "alice"));
   (31, EvUpdateSecret 2%nat "secrets/data/x/y" "user" (VString "alice"));
   (32, EvUpdateSecret 1%nat "secrets/data/x/y" "password" (VString "p1"));
   (33, EvUpdateSecret 2%nat "secrets/data/x/y" "password" (VString "p1"));
   (40, EvLog "INFO" "renewSecrets" "secrets/data/x/y");
   (50, EvTimerReset (-9223372036709551616));
   (60, EvTimerC);
   (70, EvRead "secrets/data/x/y");
   (80, EvUpdateSecret 1%nat "secrets/data/x/y" "user" (VString "alice"));
   (81, EvUpdateSecret 2%nat "secrets/data/x/y" "user" (VString "alice"));
   (82, EvUpdateSecret 1%nat "secrets/data/x/y" "password" (VString "p1"));
   (83, EvUpdateSecret 2%nat "secrets/data/x/y" "password" (VString "p1"));
   (90, EvLog "INFO" "renewSecrets" "secrets/data/x/y");
   (100, EvTimerReset (-9223372036709551616))].

(** Clock readings for two passes with a 30 second period: each receive
    from the timer channel comes just after the timer expires. *)
Definition on_schedule : list (Z * Event) :=
  [(0, EvNewTimer 30000000000);
   (30000000010, EvTimerC);
   (30000000020, EvRead "secrets/data/x/y");
   (30000000030,
    EvUpdateSecret 1%nat "secrets/data/x/y" "user" (VString "alice"));
   (30000000031,
    EvUpdateSecret 2%nat "secrets/data/x/y" "user" (VString "alice"));
   (30000000032,
    EvUpdateSecret 1%nat "secrets/data/x/y" "password" (VString "p1"));
   (30000000033,
    EvUpdateSecret 2%nat "secrets/data/x/y" "password" (VString "p1"));
   (30000000040, EvLog "INFO" "renewSecrets" "secrets/data/x/y");
   (30000000050, EvTimerReset 30000000000);
   (60000000060, EvTimerC);
   (60000000070, EvRead "secrets/data/x/y");
   (60000000080,
    EvUpdateSecret 1%nat "secrets/data/x/y" "user" (VString "alice"));
   (60000000081,
    EvUpdateSecret 2%nat "secrets/data/x/y" "user" (VString "alice"));
   (60000000082,
    EvUpdateSecret 1%nat "secrets/data/x/y" "password" (VString "p1"));
   (60000000083,
    EvUpdateSecret 2%nat "secrets/data/x/y" "password" (VString "p1"));
   (60000000090, EvLog "INFO" "renewSecrets" "secrets/data/x/y");
   (60000000100, EvTimerReset 30000000000)].

End Ex.

(* ===================================================================== *)
(** ** Further observations *)
(* ===================================================================== *)

(** A history of registrations applied in order. *)
Definition register_all (a : Agent) (regs : list (string * SecretReceiver))
  : Agent :=
  foldl (fun a' p => RegisterUpdateSecret a' p.1 p.2) a regs.

(** The receivers a history registers for [L], in order. *)
Definition registered_for (L : string) (regs : list (string * SecretReceiver))
  : list SecretReceiver :=
  omap (fun p => if decide (p.1 = L) then Some p.2 else None) regs.

(** The locations read, in order. *)
Definition reads_of (tr : list Event) : list string :=
  omap (fun e => match e with EvRead p => Some p | _ => None end) tr.

Definition is_update_for (id : string) (e : Event) : bool :=
  match e with
  | EvUpdateSecret _ id' _ _ => String.eqb id' id
  | _ => false
  end.

(** The callbacks made for location [id], in order. *)
Definition updates_for (id : string) (tr : list Event) : list Event :=
  List.filter (is_update_for id) tr.

Definition is_wg_done (e : Event) : bool :=
  match e with EvWgDone => true | _ => false end.

Definition is_watcher_stop (e : Event) : bool :=
  match e with EvWatcherStop => true | _ => false end.

Definition is_watcher_start (e : Event) : bool :=
  match e with EvGo GoWatcherStart => true | _ => false end.

Definition is_login (e : Event) : bool :=
  match e with EvLogin _ => true | _ => false end.

Definition is_timer_receive (e : Event) : bool :=
  match e with EvTimerC => true | _ => false end.

Definition is_timer_reset (e : Event) : bool :=
  match e with EvTimerReset _ => true | _ => false end.

(** How many events of a kind a trace holds. *)
Definition count_events (p : Event -> bool) (tr : list Event) : nat :=
  length (List.filter p tr).

(** What the [wg.Add] calls of a trace add up to. *)
Fixpoint wg_added (tr : list Event) : Z :=
  match tr with
  | [] => 0
  | EvWgAdd k :: rest => k + wg_added rest
  | _ :: rest => wg_added rest
  end.

(** The file [New] looks for after applying [WithConfigFile] options. *)
Definition chosen_file (files : list string) : string :=
  configFile (applied_opts (WithConfigFile <$> files)).

(** What a pass over [order] started at read number [n] may emit: reads
    of visited locations, callbacks to receivers registered for a visited
    location carrying a field the store answered for that location, and
    its log line. *)
Definition pass_event_ok (env : Env) (a : Agent) (order : list string)
    (n : nat) (e : Event) : Prop :=
  match e with
  | EvRead L => L ∈ order
  | EvUpdateSecret r L k v =>
      L ∈ order /\ r ∈ receivers_at a L /\
      exists m fields, (n <= m)%nat /\ readable env m L fields /\
                       (k, v) ∈ fields
  | EvLog _ _ L => L ∈ order
  | _ => False
  end.

(** A store answer the pass cannot use, and the panic it causes. *)
Definition unusable (env : Env) (n : nat) (path : string) (msg : string)
  : Prop :=
  match (Logical_Read env n path).1 with
  | None => msg = nil_deref
  | Some s =>
      msg = bad_assert /\
      forall fields, Data s !! "data" <> Some (VMap fields)
  end.

(** *** The receivers of the example program

    [example/main.go] declares two structs, [redis] and [netbox], with the
    same fields and the same [UpdateSecret] method; one definition stands
    for both.  The mutex is left out: calls are applied one after the
    other. *)
Module Example.

Record redis : Type := { id : string; user : string; password : string }.

Definition netbox : Type := redis.

Definition UpdateSecret (r : redis) (id' fieldName : string) (v : value)
  : redis :=
  if negb (String.eqb (id r) id') then r
  else if String.eqb fieldName "user" then
    match v with
    | VString name =>
        if negb (String.eqb (user r) name) then
          {| id := id r; user := name; password := password r |}
        else r
    | _ => r
    end
  else if String.eqb fieldName "password" then
    match v with
    | VString pwd =>
        if negb (String.eqb (password r) pwd) then
          {| id := id r; user := user r; password := pwd |}
        else r
    | _ => r
    end
  else r.

(** The structs behind the receiver handles, and what a trace of callbacks
    does to them. *)
Definition deliver (tbl : gmap SecretReceiver redis) (tr : list Event)
  : gmap SecretReceiver redis :=
  foldl (fun tbl' e =>
           match e with
           | EvUpdateSecret r id' f v =>
               alter (fun s => UpdateSecret s id' f v) r tbl'
           | _ => tbl'
           end) tbl tr.

End Example.

(** More concrete inputs. *)
Module Ex2.

Definition regs : list (string * SecretReceiver) :=
  [("secrets/data/netpush/redis", 1%nat);
   ("secrets/data/netpush/netbox", 2%nat);
   ("secrets/data/netpush/redis", 3%nat)].

(** A store that finds nothing at any path: no secret and no error. *)
Definition env_not_found : Env :=
  {| os_Stat := os_Stat (Ex.env "userpass" 30);
     hclsimple_DecodeFile := hclsimple_DecodeFile (Ex.env "userpass" 30);
     vault_NewClient := vault_NewClient (Ex.env "userpass" 30);
     approle_NewAppRoleAuth := approle_NewAppRoleAuth (Ex.env "userpass" 30);
     ldap_NewLDAPAuth := ldap_NewLDAPAuth (Ex.env "userpass" 30);
     userpass_NewUserpassAuth :=
       userpass_NewUserpassAuth (Ex.env "userpass" 30);
     Auth_Login := Auth_Login (Ex.env "userpass" 30);
     Secret_TokenID := Secret_TokenID (Ex.env "userpass" 30);
     Client_NewLifetimeWatcher :=
       Client_NewLifetimeWatcher (Ex.env "userpass" 30);
     Logical_Read := fun _ _ => (None, None) |}.

(** A store whose secrets carry their fields at top level, with no
    ["data"] entry (as a version 1 key-value engine answers). *)
Definition env_flat : Env :=
  {| os_Stat := os_Stat (Ex.env "userpass" 30);
     hclsimple_DecodeFile := hclsimple_DecodeFile (Ex.env "userpass" 30);
     vault_NewClient := vault_NewClient (Ex.env "userpass" 30);
     approle_NewAppRoleAuth := approle_NewAppRoleAuth (Ex.env "userpass" 30);
     ldap_NewLDAPAuth := ldap_NewLDAPAuth (Ex.env "userpass" 30);
     userpass_NewUserpassAuth :=
       userpass_NewUserpassAuth (Ex.env "userpass" 30);
     Auth_Login := Auth_Login (Ex.env "userpass" 30);
     Secret_TokenID := Secret_TokenID (Ex.env "userpass" 30);
     Client_NewLifetimeWatcher :=
       Client_NewLifetimeWatcher (Ex.env "userpass" 30);
     Logical_Read := fun _ _ =>
       (Some {| Data := {[ "user" := VString "alice" ]}; Auth := None |},
        None) |}.

(** A configuration file that is there but does not decode. *)
Definition env_malformed : Env :=
  {| os_Stat := os_Stat (Ex.env "userpass" 30);
     hclsimple_DecodeFile := fun _ =>
       ({| Vault := {| Server := ""; AuthMethod := ""; Username := "";
                       Password := ""; RenewSecretsPeriod := 0 |} |},
        Some "config.hcl:3,3-4: Unsupported argument");
     vault_NewClient := vault_NewClient (Ex.env "userpass" 30);
     approle_NewAppRoleAuth := approle_NewAppRoleAuth (Ex.env "userpass" 30);
     ldap_NewLDAPAuth := ldap_NewLDAPAuth (Ex.env "userpass" 30);
     userpass_NewUserpassAuth :=
       userpass_NewUserpassAuth (Ex.env "userpass" 30);
     Auth_Login := Auth_Login (Ex.env "userpass" 30);
     Secret_TokenID := Secret_TokenID (Ex.env "userpass" 30);
     Client_NewLifetimeWatcher :=
       Client_NewLifetimeWatcher (Ex.env "userpass" 30);
     Logical_Read := Logical_Read (Ex.env "userpass" 30) |}.

(** The struct behind receiver 1 of [Ex.agent_xy], before any update. *)
Definition tbl : gmap SecretReceiver Example.redis :=
  {[ 1%nat := {| Example.id := "secrets/data/x/y"; Example.user := "";
                 Example.password := "" |} ]}.

End Ex2.

(* ===================================================================== *)
(** ** Reasoning about computations *)
(* ===================================================================== *)

Section Monad_lemmas.

Context {A B : Type}.

Lemma bind_returned (m : M A) (k : A -> M B) n a t n' :
  m n = (Returned a, t, n') ->
  bind m k n = ((k a n').1.1, t ++ (k a n').1.2, (k a n').2).
Proof.
  intros Hm. unfold bind. rewrite Hm.
  destruct (k a n') as [[r t'] n'']. reflexivity.
Qed.

Lemma bind_panicked (m : M A) (k : A -> M B) n msg t n' :
  m n = (Panicked msg, t, n') -> bind m k n = (Panicked msg, t, n').
Proof. intros Hm. unfold bind. by rewrite Hm. Qed.

(** A sequence that returns is made of two parts that return. *)
Lemma bind_returned_inv (m : M A) (k : A -> M B) n b t n'' :
  bind m k n = (Returned b, t, n'') ->
  exists a t1 n' t2,
    m n = (Returned a, t1, n') /\ k a n' = (Returned b, t2, n'') /\
    t = t1 ++ t2.
Proof.
  unfold bind. destruct (m n) as [[[a|msg|] t1] n']; try discriminate.
  destruct (k a n') as [[r t2] n2] eqn:Hk. intros [= -> <- <-].
  exists a, t1, n', t2. by rewrite Hk.
Qed.

End Monad_lemmas.

(** Symbolic execution of straight-line code. *)
Ltac run_code :=
  cbv [bind emit ret deref panic blocked with_defer go_stmt fst snd];
  cbn [app].

(** The same, also reading and writing the agent's fields. *)
Ltac run_agent :=
  cbv [bind emit ret deref panic blocked with_defer go_stmt fst snd
       opts cfg client secret secretSync set_cfg set_client set_secret];
  cbn [app].

Lemma emit_bind {B} (e : Event) (k : unit -> M B) n :
  bind (emit e) k n = ((k tt n).1.1, e :: (k tt n).1.2, (k tt n).2).
Proof. by rewrite (bind_returned _ _ n tt [e] n). Qed.

Lemma for_each_emit {X} (l : list X) (f : X -> Event) n :
  for_each l (fun x => emit (f x)) n = (Returned tt, f <$> l, n).
Proof.
  induction l as [|x l IH]; [done|].
  cbn [for_each]. rewrite emit_bind, IH. reflexivity.
Qed.

(* ===================================================================== *)
(** ** Registry and dispatch *)
(* ===================================================================== *)

Lemma setSecret_run a id fieldName v n :
  setSecret a id fieldName v n
  = (Returned tt, setSecret_calls a id fieldName v, n).
Proof. unfold setSecret, setSecret_calls. apply for_each_emit. Qed.

Lemma dispatch_run a path fields n :
  dispatch a path fields n = (Returned tt, dispatch_calls a path fields, n).
Proof.
  unfold dispatch, dispatch_calls.
  induction fields as [|[k v] fields IH]; [done|].
  cbn [for_each]. rewrite (bind_returned _ _ _ _ _ _ (setSecret_run _ _ _ _ _)).
  rewrite IH. reflexivity.
Qed.

Lemma calls_for_app f t1 t2 :
  calls_for f (t1 ++ t2) = calls_for f t1 ++ calls_for f t2.
Proof. unfold calls_for. apply omap_app. Qed.

Lemma calls_for_setSecret_same a id f v :
  calls_for f (setSecret_calls a id f v) = receivers_at a id.
Proof.
  unfold calls_for, setSecret_calls.
  induction (receivers_at a id) as [|r l IH]; [done|].
  cbn. rewrite decide_True by done. by rewrite IH.
Qed.

Lemma calls_for_setSecret_other a id f f' v :
  f' <> f -> calls_for f (setSecret_calls a id f' v) = [].
Proof.
  intros Hne. unfold calls_for, setSecret_calls.
  induction (receivers_at a id) as [|r l IH]; [done|].
  cbn. rewrite decide_False by done. by rewrite IH.
Qed.

Lemma calls_for_dispatch_absent a path fields f :
  f ∉ fields.*1 -> calls_for f (dispatch_calls a path fields) = [].
Proof.
  unfold dispatch_calls. induction fields as [|[k v] fields IH]; [done|].
  rewrite fmap_cons, bind_cons. cbn [fst snd].
  intros Hnot. apply not_elem_of_cons in Hnot as [Hne Hnot].
  rewrite calls_for_app, calls_for_setSecret_other by done.
  by rewrite IH.
Qed.

Lemma calls_for_dispatch a path fields k v :
  NoDup fields.*1 -> (k, v) ∈ fields ->
  calls_for k (dispatch_calls a path fields) = receivers_at a path.
Proof.
  unfold dispatch_calls. induction fields as [|[k' v'] fields IH]; intros Hnd Hin.
  - by apply elem_of_nil in Hin.
  - rewrite fmap_cons in Hnd. rewrite bind_cons. cbn [fst snd] in *.
    apply NoDup_cons in Hnd as [Hfresh Hnd].
    rewrite calls_for_app.
    apply elem_of_cons in Hin as [[= -> ->]|Hin].
    + rewrite calls_for_setSecret_same.
      fold (dispatch_calls a path fields).
      rewrite calls_for_dispatch_absent by done. by rewrite app_nil_r.
    + assert (k' <> k) as Hne.
      { intros ->. apply Hfresh. apply list_elem_of_fmap. by exists (k, v). }
      rewrite calls_for_setSecret_other by done. by apply IH.
Qed.

Lemma elem_of_dispatch_calls a path fields e :
  e ∈ dispatch_calls a path fields <->
  exists r k v,
    e = EvUpdateSecret r path k v /\ r ∈ receivers_at a path /\
    (k, v) ∈ fields.
Proof.
  unfold dispatch_calls, setSecret_calls. rewrite list_elem_of_bind. split.
  - intros ([k v] & He & Hin). apply list_elem_of_fmap in He as (r & -> & Hr).
    by exists r, k, v.
  - intros (r & k & v & -> & Hr & Hin). exists (k, v). split; [|done].
    apply list_elem_of_fmap. by exists r.
Qed.

(** C4.  Dispatching the fields read for a location calls back, for every
    field, exactly the receivers registered for that location, once per
    registration and in registration order; it calls nobody else, and with
    no registrations it does nothing and still returns normally. *)
Theorem dispatch_each_receiver_once_per_field
    (a : Agent) (L : string) (fields : list (string * value)) (n : nat)
    (Hkeys : NoDup fields.*1) :
  outcome_of (dispatch a L fields n) = Returned tt /\
  (forall k v, (k, v) ∈ fields ->
     calls_for k (trace_of (dispatch a L fields n)) = receivers_at a L) /\
  (forall e, e ∈ trace_of (dispatch a L fields n) ->
     exists r k v, e = EvUpdateSecret r L k v /\ r ∈ receivers_at a L /\
                   (k, v) ∈ fields) /\
  (receivers_at a L = [] -> trace_of (dispatch a L fields n) = []).
Proof.
  rewrite dispatch_run. unfold outcome_of, trace_of. cbn.
  split; [done|]. split; [|split].
  - intros k v Hin. by apply calls_for_dispatch with v.
  - intros e He. by apply elem_of_dispatch_calls.
  - intros Hnone. unfold dispatch_calls, setSecret_calls. rewrite Hnone.
    induction fields as [|kv fields IH]; [done|].
    rewrite bind_cons. cbn [fmap list_fmap app]. apply IH.
    rewrite fmap_cons in Hkeys. by apply NoDup_cons in Hkeys as [_ ?].
Qed.

Lemma dispatch_each_receiver_once_per_field_witness :
  NoDup Ex.fields_xy.*1 /\
  calls_for "password"
    (trace_of (dispatch (Ex.agent_xy 30) "secrets/data/x/y" Ex.fields_xy 0%nat))
  = [1%nat; 2%nat].
Proof.
  assert (NoDup Ex.fields_xy.*1) as Hkeys
    by (apply (bool_decide_unpack _); vm_compute; exact I).
  split; [exact Hkeys|].
  destruct (dispatch_each_receiver_once_per_field
              (Ex.agent_xy 30) "secrets/data/x/y" Ex.fields_xy 0%nat Hkeys)
    as (_ & Hcalls & _).
  rewrite (Hcalls "password" (VString "p1")).
  - reflexivity.
  - apply list_elem_of_In. right. left. reflexivity.
Defined.

Lemma receivers_at_Register_same a L c :
  receivers_at (RegisterUpdateSecret a L c) L = receivers_at a L ++ [c].
Proof.
  unfold RegisterUpdateSecret, receivers_at at 1. cbn.
  by rewrite lookup_insert_eq.
Qed.

Lemma receivers_at_Register_other a L c L' :
  L' <> L ->
  receivers_at (RegisterUpdateSecret a L c) L' = receivers_at a L'.
Proof.
  intros Hne. unfold RegisterUpdateSecret, receivers_at at 1. cbn.
  by rewrite lookup_insert_ne.
Qed.

(** Later registrations only append: what is registered stays, in place. *)
Lemma receivers_at_later a (later : list (string * SecretReceiver)) L :
  exists l2,
    receivers_at
      (foldl (fun a' p => RegisterUpdateSecret a' p.1 p.2) a later) L
    = receivers_at a L ++ l2.
Proof.
  revert a. induction later as [|[L' c'] later IH]; intros a.
  - exists []. cbn. by rewrite app_nil_r.
  - cbn [foldl fst snd]. destruct (IH (RegisterUpdateSecret a L' c')) as [l2 Hl2].
    rewrite Hl2. destruct (decide (L = L')) as [->|Hne].
    + rewrite receivers_at_Register_same. exists ([c'] ++ l2).
      by rewrite app_assoc.
    + rewrite receivers_at_Register_other by done. by exists l2.
Qed.

(** C6.  Registering appends the receiver to the location's list (creating
    it when the location is new) and leaves other locations alone; a
    receiver registered twice is called back twice; [setSecret] calls the
    receivers in list order; and once registered, a receiver stays in
    place through every later registration, so every later dispatch to the
    location calls it. *)
Theorem Register_appends_and_dispatch_follows
    (a : Agent) (L : string) (c : SecretReceiver)
    (later : list (string * SecretReceiver))
    (fields : list (string * value)) (k : string) (v : value) (n : nat)
    (Hfield : (k, v) ∈ fields) :
  receivers (secretSync (RegisterUpdateSecret a L c)) !! L
    = Some (receivers_at a L ++ [c]) /\
  (receivers (secretSync a) !! L = None ->
   receivers (secretSync (RegisterUpdateSecret a L c)) !! L = Some [c]) /\
  (forall L', L' <> L ->
     receivers (secretSync (RegisterUpdateSecret a L c)) !! L'
     = receivers (secretSync a) !! L') /\
  trace_of
    (setSecret (RegisterUpdateSecret (RegisterUpdateSecret a L c) L c)
       L k v n)
  = setSecret_calls a L k v
    ++ [EvUpdateSecret c L k v; EvUpdateSecret c L k v] /\
  (forall a', trace_of (setSecret a' L k v n)
              = (fun r => EvUpdateSecret r L k v) <$> receivers_at a' L) /\
  let a' := foldl (fun a' p => RegisterUpdateSecret a' p.1 p.2)
              (RegisterUpdateSecret a L c) later in
  (exists l2, receivers_at a' L = receivers_at a L ++ [c] ++ l2) /\
  EvUpdateSecret c L k v ∈ trace_of (dispatch a' L fields n).
Proof.
  split; [|split; [|split; [|split; [|split]]]].
  - unfold RegisterUpdateSecret. cbn. by rewrite lookup_insert_eq.
  - intros Hnone. unfold RegisterUpdateSecret, receivers_at. cbn.
    by rewrite lookup_insert_eq, Hnone.
  - intros L' Hne. unfold RegisterUpdateSecret. cbn.
    by rewrite lookup_insert_ne.
  - rewrite setSecret_run. unfold trace_of, setSecret_calls. cbn.
    rewrite !receivers_at_Register_same, !fmap_app, <- app_assoc.
    reflexivity.
  - intros a'. by rewrite setSecret_run.
  - cbn zeta.
    destruct (receivers_at_later (RegisterUpdateSecret a L c) later L)
      as [l2 Hl2].
    rewrite receivers_at_Register_same in Hl2. split.
    + exists l2. by rewrite Hl2, <- app_assoc.
    + rewrite dispatch_run. unfold trace_of. cbn.
      apply elem_of_dispatch_calls. exists c, k, v.
      split; [done|]. split; [|done].
      rewrite Hl2. set_solver.
Qed.

Lemma Register_appends_and_dispatch_follows_witness :
  ("user", VString "alice") ∈ Ex.fields_xy /\
  EvUpdateSecret 7%nat "secrets/data/x/y" "user" (VString "alice")
  ∈ trace_of
      (dispatch
         (foldl (fun a' p => RegisterUpdateSecret a' p.1 p.2)
            (RegisterUpdateSecret (Ex.agent_xy 30) "secrets/data/x/y" 7%nat)
            [("secrets/data/x/y", 8%nat); ("secrets/data/other", 7%nat)])
         "secrets/data/x/y" Ex.fields_xy 0%nat).
Proof.
  assert (("user", VString "alice") ∈ Ex.fields_xy) as Hfield
    by (apply list_elem_of_In; left; reflexivity).
  split; [exact Hfield|].
  exact (proj2 (proj2 (proj2 (proj2 (proj2 (proj2
    (Register_appends_and_dispatch_follows
       (Ex.agent_xy 30) "secrets/data/x/y" 7%nat
       [("secrets/data/x/y", 8%nat); ("secrets/data/other", 7%nat)]
       Ex.fields_xy "user" (VString "alice") 0%nat Hfield))))))).
Defined.

(* ===================================================================== *)
(** ** The refresh pass *)
(* ===================================================================== *)

Lemma renewSecretPaths_cons env a path rest n :
  renewSecretPaths env a (path :: rest) n
  = bind (pass_step env a path) (fun _ => renewSecretPaths env a rest) n.
Proof.
  unfold renewSecretPaths. cbn [for_each].
  unfold bind at 1 3. f_equal.
  unfold pass_step, bind, Logical_Read_call, deref, ret, panic, emit.
  destruct (Logical_Read env n path) as [[s|] err]; cbn [fst snd]; [|done].
  destruct (Data s !! "data") as [[| | | | |fields]|]; try done.
  rewrite dispatch_run. destruct (cfg a); cbn; by rewrite ?app_nil_r.
Qed.

Lemma pass_step_not_blocked env a path n :
  outcome_of (pass_step env a path n) <> Blocked.
Proof.
  unfold pass_step, outcome_of.
  destruct (Logical_Read env n path) as [[s|] err]; cbn [fst snd]; [|done].
  destruct (Data s !! "data") as [[| | | | |fields]|]; try done.
  by destruct (cfg a).
Qed.

Lemma pass_step_returned_inv env a path n u t n' :
  pass_step env a path n = (Returned u, t, n') ->
  exists fields,
    readable env n path fields /\ n' = S n /\ is_Some (cfg a) /\
    t = EvRead path :: dispatch_calls a path fields
          ++ [EvLog "INFO" "renewSecrets" path].
Proof.
  unfold pass_step, readable.
  destruct (Logical_Read env n path) as [[s|] err]; cbn [fst snd]; [|done].
  destruct (Data s !! "data") as [[| | | | |fields]|] eqn:Hd; try done.
  destruct (cfg a) eqn:Hc; [|done].
  intros [= <- <-]. exists fields. eauto 8.
Qed.

(** A pass never waits: it returns or panics. *)
Lemma renewSecretPaths_not_blocked env a order n :
  outcome_of (renewSecretPaths env a order n) <> Blocked.
Proof.
  revert n. induction order as [|path rest IH]; intros n; [done|].
  rewrite renewSecretPaths_cons. unfold bind.
  destruct (pass_step env a path n) as [[[u|msg|] t] n'] eqn:Hstep.
  - specialize (IH n').
    by destruct (renewSecretPaths env a rest n') as [[r t'] n''].
  - done.
  - by destruct (pass_step_not_blocked env a path n); rewrite Hstep.
Qed.

(** The read counter only grows during a pass. *)
Lemma renewSecretPaths_reads env a order n u t n' :
  renewSecretPaths env a order n = (Returned u, t, n') ->
  n' = (n + length order)%nat.
Proof.
  revert n t. induction order as [|path rest IH]; intros n t.
  - cbn. intros [= _ _ <-]. lia.
  - rewrite renewSecretPaths_cons. intros H.
    apply bind_returned_inv in H as (u1 & t1 & n1 & t2 & Hstep & Hrest & ->).
    apply pass_step_returned_inv in Hstep as (_ & _ & -> & _).
    apply IH in Hrest. cbn [length]. lia.
Qed.

(** A pass that returns has read every location it visited and pushed the
    fields it read to the receivers of that location. *)
Lemma renewSecretPaths_returned_inv env a order n u t n' :
  renewSecretPaths env a order n = (Returned u, t, n') ->
  forall L, L ∈ order ->
    exists pre post m fields,
      t = pre ++ EvRead L :: dispatch_calls a L fields ++ post /\
      readable env m L fields /\ (n <= m < n')%nat.
Proof.
  revert n t. induction order as [|path rest IH]; intros n t H L HL.
  - by apply elem_of_nil in HL.
  - rewrite renewSecretPaths_cons in H.
    apply bind_returned_inv in H as (u1 & t1 & n1 & t2 & Hstep & Hrest & ->).
    pose proof (renewSecretPaths_reads _ _ _ _ _ _ _ Hrest) as Hn'.
    apply pass_step_returned_inv in Hstep as (fields & Hrd & -> & _ & ->).
    apply elem_of_cons in HL as [->|HL].
    + exists [], ([EvLog "INFO" "renewSecrets" path] ++ t2), n, fields.
      split; [|split; [done|lia]].
      cbn. by rewrite <- app_assoc.
    + destruct (IH _ _ Hrest L HL) as (pre & post & m & f & -> & Hf & Hm).
      exists ((EvRead path :: dispatch_calls a path fields
                ++ [EvLog "INFO" "renewSecrets" path]) ++ pre), post, m, f.
      split; [|split; [done|lia]].
      by rewrite <- app_assoc.
Qed.

(** With a configuration in place and a store that answers every visited
    location with a field map, the pass returns. *)
Lemma renewSecretPaths_returns env a order n :
  is_Some (cfg a) ->
  (forall L m, L ∈ order -> exists fields, readable env m L fields) ->
  outcome_of (renewSecretPaths env a order n) = Returned tt.
Proof.
  intros [c Hc] Hread. revert n.
  induction order as [|path rest IH]; intros n; [done|].
  rewrite renewSecretPaths_cons.
  destruct (Hread path n) as (fields & s & Hs & Hd); [set_solver|].
  assert (pass_step env a path n
          = (Returned tt,
             EvRead path :: dispatch_calls a path fields
               ++ [EvLog "INFO" "renewSecrets" path], S n)) as Hstep.
  { unfold pass_step. by rewrite Hs, Hd, Hc. }
  rewrite (bind_returned _ _ _ _ _ _ Hstep). unfold outcome_of. cbn.
  apply IH. intros L m HL. apply Hread. set_solver.
Qed.

(* ===================================================================== *)
(** ** Run *)
(* ===================================================================== *)

(** [Run] is its three bookkeeping events followed by the initial pass. *)
Lemma Run_unfold env a s1 s2 order n :
  Run env a s1 s2 order n
  = match renewSecretPaths env a order n with
    | (Returned _, t, n') =>
        (Returned None,
         [EvWgAdd 2; EvGo GoRenewAuthToken; EvGo GoRenewSecrets] ++ t, n')
    | (Panicked msg, t, n') =>
        (Panicked msg,
         [EvWgAdd 2; EvGo GoRenewAuthToken; EvGo GoRenewSecrets] ++ t, n')
    | (Blocked, t, n') =>
        (Blocked,
         [EvWgAdd 2; EvGo GoRenewAuthToken; EvGo GoRenewSecrets] ++ t, n')
    end.
Proof.
  unfold Run, go_stmt. rewrite !emit_bind. unfold bind, ret.
  destruct (renewSecretPaths env a order n) as [[[u|msg|] t] n']; cbn;
    by rewrite ?app_nil_r.
Qed.

(** C3.  When [Run] returns, the initial pass is behind it: for every
    location registered when [Run] was called, the trace of the call
    contains a read of that location followed by the callbacks pushing
    every field the store answered to every receiver of the location. *)
Theorem Run_returns_after_initial_pass
    (env : Env) (a : Agent) (s1 : list AuthSelect) (s2 : list SecretsSelect)
    (order : list string) (n : nat)
    (e : option error) (tr : list Event) (n' : nat)
    (Horder : forall L, is_Some (receivers (secretSync a) !! L) -> L ∈ order)
    (Hrun : Run env a s1 s2 order n = (Returned e, tr, n')) :
  forall L, is_Some (receivers (secretSync a) !! L) ->
    exists pre post m fields,
      tr = pre ++ EvRead L :: dispatch_calls a L fields ++ post /\
      readable env m L fields /\ (n <= m < n')%nat.
Proof.
  intros L HL. rewrite Run_unfold in Hrun.
  destruct (renewSecretPaths env a order n) as [[[u|msg|] t] n1] eqn:Hpass;
    try discriminate.
  injection Hrun as _ <- <-.
  destruct (renewSecretPaths_returned_inv _ _ _ _ _ _ _ Hpass L (Horder L HL))
    as (pre & post & m & fields & -> & Hrd & Hm).
  exists ([EvWgAdd 2; EvGo GoRenewAuthToken; EvGo GoRenewSecrets] ++ pre),
    post, m, fields.
  by rewrite <- app_assoc.
Qed.

Lemma Run_returns_after_initial_pass_witness :
  (forall L, is_Some (receivers (secretSync (Ex.agent_xy 30)) !! L) ->
             L ∈ ["secrets/data/x/y"]) /\
  Run (Ex.env "userpass" 30) (Ex.agent_xy 30) [] [] ["secrets/data/x/y"]
    0%nat
  = (Returned None,
     [EvWgAdd 2; EvGo GoRenewAuthToken; EvGo GoRenewSecrets;
      EvRead "secrets/data/x/y";
      EvUpdateSecret 1%nat "secrets/data/x/y" "user" (VString "alice");
      EvUpdateSecret 2%nat "secrets/data/x/y" "user" (VString "alice");
      EvUpdateSecret 1%nat "secrets/data/x/y" "password" (VString "p1");
      EvUpdateSecret 2%nat "secrets/data/x/y" "password" (VString "p1");
      EvLog "INFO" "renewSecrets" "secrets/data/x/y"], 1%nat) /\
  exists pre post m fields,
    [EvWgAdd 2; EvGo GoRenewAuthToken; EvGo GoRenewSecrets;
     EvRead "secrets/data/x/y";
     EvUpdateSecret 1%nat "secrets/data/x/y" "user" (VString "alice");
     EvUpdateSecret 2%nat "secrets/data/x/y" "user" (VString "alice");
     EvUpdateSecret 1%nat "secrets/data/x/y" "password" (VString "p1");
     EvUpdateSecret 2%nat "secrets/data/x/y" "password" (VString "p1");
     EvLog "INFO" "renewSecrets" "secrets/data/x/y"]
    = pre ++ EvRead "secrets/data/x/y"
        :: dispatch_calls (Ex.agent_xy 30) "secrets/data/x/y" fields ++ post /\
    readable (Ex.env "userpass" 30) m "secrets/data/x/y" fields /\
    (0 <= m < 1)%nat.
Proof.
  assert (forall L, is_Some (receivers (secretSync (Ex.agent_xy 30)) !! L) ->
                    L ∈ ["secrets/data/x/y"]) as Horder.
  { intros L [l Hl]. destruct (decide (L = "secrets/data/x/y")) as [->|Hne].
    - apply list_elem_of_In. left. reflexivity.
    - unfold Ex.agent_xy, RegisterUpdateSecret in Hl. cbn in Hl.
      rewrite !lookup_insert_ne in Hl by done.
      by rewrite lookup_empty in Hl. }
  assert (Run (Ex.env "userpass" 30) (Ex.agent_xy 30) [] []
            ["secrets/data/x/y"] 0%nat
          = (Returned None,
             [EvWgAdd 2; EvGo GoRenewAuthToken; EvGo GoRenewSecrets;
              EvRead "secrets/data/x/y";
              EvUpdateSecret 1%nat "secrets/data/x/y" "user" (VString "alice");
              EvUpdateSecret 2%nat "secrets/data/x/y" "user" (VString "alice");
              EvUpdateSecret 1%nat "secrets/data/x/y" "password"
                (VString "p1");
              EvUpdateSecret 2%nat "secrets/data/x/y" "password"
                (VString "p1");
              EvLog "INFO" "renewSecrets" "secrets/data/x/y"], 1%nat))
    as Hrun by (vm_compute; reflexivity).
  split; [exact Horder|]. split; [exact Hrun|].
  apply (Run_returns_after_initial_pass _ _ _ _ _ _ _ _ _ Horder Hrun).
  exists [1%nat; 2%nat]. vm_compute. reflexivity.
Defined.

(** C9.  Whatever the two loops do or return, the only error value [Run]
    ever returns is nil: it returns nil exactly when the initial pass gets
    through, and otherwise the pass has panicked and [Run] returns nothing
    at all.  Its result does not depend on the loops' schedules. *)
Theorem Run_error_result_is_nil
    (env : Env) (a : Agent) (s1 : list AuthSelect) (s2 : list SecretsSelect)
    (order : list string) (n : nat) :
  (forall e, outcome_of (Run env a s1 s2 order n) = Returned e -> e = None) /\
  outcome_of (Run env a s1 s2 order n)
  = match outcome_of (renewSecretPaths env a order n) with
    | Returned _ => Returned None
    | Panicked msg => Panicked msg
    | Blocked => Blocked
    end /\
  outcome_of (Run env a s1 s2 order n) <> Blocked /\
  (forall s1' s2', Run env a s1' s2' order n = Run env a s1 s2 order n) /\
  (is_Some (cfg a) ->
   (forall L m, L ∈ order -> exists fields, readable env m L fields) ->
   outcome_of (Run env a s1 s2 order n) = Returned None).
Proof.
  pose proof (renewSecretPaths_not_blocked env a order n) as Hnb.
  assert (outcome_of (Run env a s1 s2 order n)
          = match outcome_of (renewSecretPaths env a order n) with
            | Returned _ => Returned None
            | Panicked msg => Panicked msg
            | Blocked => Blocked
            end) as Hout.
  { rewrite Run_unfold.
    by destruct (renewSecretPaths env a order n) as [[[u|msg|] t] n']. }
  split; [|split; [exact Hout|split; [|split]]].
  - intros e. rewrite Hout.
    destruct (outcome_of (renewSecretPaths env a order n)); congruence.
  - rewrite Hout.
    by destruct (outcome_of (renewSecretPaths env a order n)).
  - intros s1' s2'. by rewrite !Run_unfold.
  - intros Hc Hread. rewrite Hout.
    by rewrite (renewSecretPaths_returns env a order n Hc Hread).
Qed.

Lemma Run_error_result_is_nil_witness :
  outcome_of
    (Run (Ex.env "userpass" 30) (Ex.agent_xy 30)
       [AuthDoneCh (Some "lease expired")] [SecretsCtxDone]
       ["secrets/data/x/y"] 0%nat)
  = Returned None.
Proof.
  apply (Run_error_result_is_nil (Ex.env "userpass" 30) (Ex.agent_xy 30)).
  - by eexists.
  - intros L m HL. apply list_elem_of_In in HL as [<-|[]].
    exists Ex.fields_xy, Ex.secret_xy. split; reflexivity.
Defined.

(* ===================================================================== *)
(** ** A read that fails *)
(* ===================================================================== *)

(** The read error is dropped, and the nil secret that comes with it is
    dereferenced on the next line. *)
Lemma renewSecretPaths_nil_secret env a path rest n :
  (Logical_Read env n path).1 = None ->
  renewSecretPaths env a (path :: rest) n
  = (Panicked nil_deref, [EvRead path], S n).
Proof.
  intros Hnil. rewrite renewSecretPaths_cons.
  apply bind_panicked. unfold pass_step. by rewrite Hnil.
Qed.

(** C1 (the code departs from the claim).  With receivers registered for
    two locations and a store that refuses the first one visited, the pass
    does not skip that location: it panics right after the failed read,
    the second location is never read and nobody is called back; the
    refresh loop ends in that panic instead of rearming its timer, and
    [Run] does not return. *)
Theorem renewSecretPaths_failed_read_panics :
  Logical_Read (Ex.env "userpass" 30) 0%nat "secrets/data/locked"
  = (None, Some "permission denied") /\
  renewSecretPaths (Ex.env "userpass" 30) (Ex.agent_two_paths 30)
    ["secrets/data/locked"; "secrets/data/x/y"] 0%nat
  = (Panicked nil_deref, [EvRead "secrets/data/locked"], 1%nat) /\
  renewSecrets (Ex.env "userpass" 30) (Ex.agent_two_paths 30)
    [SecretsTimerC ["secrets/data/locked"; "secrets/data/x/y"];
     SecretsTimerC ["secrets/data/locked"; "secrets/data/x/y"]] 0%nat
  = (Panicked nil_deref,
     [EvNewTimer 30000000000; EvTimerC; EvRead "secrets/data/locked";
      EvWgDone], 1%nat) /\
  Run (Ex.env "userpass" 30) (Ex.agent_two_paths 30) [] []
    ["secrets/data/locked"; "secrets/data/x/y"] 0%nat
  = (Panicked nil_deref,
     [EvWgAdd 2; EvGo GoRenewAuthToken; EvGo GoRenewSecrets;
      EvRead "secrets/data/locked"], 1%nat).
Proof. repeat split; vm_compute; reflexivity. Qed.

(* ===================================================================== *)
(** ** New *)
(* ===================================================================== *)

(** When [os.Stat] reports that the file does not exist, [loadConfig]
    returns nil and leaves the configuration pointer nil;
    [createVaultAgent] then dereferences it. *)
Lemma New_missing_file env fns n :
  os_Stat env (configFile (applied_opts fns)) = StatNotExist ->
  New env fns n
  = (Panicked nil_deref,
     [EvLog "INFO" "NewAgent" (configFile (applied_opts fns));
      EvStat (configFile (applied_opts fns));
      EvLog "DEBUG" "NewAgent" "config"], n).
Proof.
  intros Hstat. unfold New, loadConfig, createVaultAgent.
  fold (applied_opts fns). run_agent. rewrite Hstat. reflexivity.
Qed.

(** C2 (the code departs from the claim).  Asked for a configuration file
    that does not exist, [New] does not return an error: [loadConfig]
    reports success without a configuration, and [New] panics on the nil
    configuration pointer in [createVaultAgent]. *)
Theorem New_missing_config_file_panics :
  os_Stat (Ex.env "userpass" 30) "missing.hcl" = StatNotExist /\
  loadConfig (Ex.env "userpass" 30) (Ex.agent 30) "missing.hcl" 0%nat
  = (Returned (Ex.agent 30, None), [EvStat "missing.hcl"], 0%nat) /\
  New (Ex.env "userpass" 30) [WithConfigFile "missing.hcl"] 0%nat
  = (Panicked nil_deref,
     [EvLog "INFO" "NewAgent" "missing.hcl"; EvStat "missing.hcl";
      EvLog "DEBUG" "NewAgent" "config"], 0%nat).
Proof. repeat split; vm_compute; reflexivity. Qed.

(** C5.  When the configuration file decodes and names an authentication
    method outside the three the [switch] knows (here ["kerberos"]),
    [New] returns a non-nil error and no agent, and the call makes no
    login and no read against the store. *)
Theorem New_rejects_unrecognized_authmethod
    (env : Env) (fns : list AgentOptFunc) (n : nat) (c : config)
    (Hstat : os_IsNotExist (os_Stat env (configFile (applied_opts fns)))
             = false)
    (Hdecode : hclsimple_DecodeFile env (configFile (applied_opts fns))
               = (c, None))
    (Hmethod : AuthMethod (Vault c) = "kerberos") :
  exists err tr,
    New env fns n = (Returned (None, Some err), tr, n) /\
    Forall (fun e => network_call e = false) tr.
Proof.
  unfold New, loadConfig, createVaultAgent. fold (applied_opts fns).
  run_agent. rewrite Hstat, Hdecode. run_agent.
  rewrite Hmethod. cbn [String.eqb Ascii.eqb Bool.eqb].
  destruct (vault_NewClient env (Server (Vault c))) as [cl [err|]]; run_agent.
  - eexists _, _. split; [reflexivity|]. repeat constructor.
  - eexists _, _. split; [reflexivity|]. repeat constructor.
Qed.

Lemma New_rejects_unrecognized_authmethod_witness :
  exists err tr,
    New (Ex.env "kerberos" 30) [WithConfigFile "config.hcl"] 0%nat
    = (Returned (None, Some err), tr, 0%nat) /\
    Forall (fun e => network_call e = false) tr.
Proof.
  apply (New_rejects_unrecognized_authmethod
           (Ex.env "kerberos" 30) [WithConfigFile "config.hcl"] 0%nat
           (Ex.vcfg "kerberos" 30)); reflexivity.
Defined.

(* ===================================================================== *)
(** ** The secret refresh loop *)
(* ===================================================================== *)

Lemma dispatch_calls_quiet a path fields :
  Forall (fun e => timer_event e = false) (dispatch_calls a path fields).
Proof.
  apply Forall_forall. intros e He.
  apply elem_of_dispatch_calls in He as (r & k & v & -> & _). done.
Qed.

(** A pass leaves the timer alone. *)
Lemma renewSecretPaths_quiet env a order n :
  Forall (fun e => timer_event e = false)
    (trace_of (renewSecretPaths env a order n)).
Proof.
  revert n. induction order as [|path rest IH]; intros n.
  - constructor.
  - rewrite renewSecretPaths_cons. unfold bind, trace_of.
    assert (Forall (fun e => timer_event e = false)
              (pass_step env a path n).1.2) as Hstep.
    { unfold pass_step.
      destruct (Logical_Read env n path) as [[s|] err]; cbn [fst snd];
        [|by repeat constructor].
      destruct (Data s !! "data") as [[| | | | |fields]|];
        try by repeat constructor.
      pose proof (dispatch_calls_quiet a path fields).
      destruct (cfg a); cbn [fst snd]; constructor; try done.
      apply Forall_app. split; [done|]. by repeat constructor. }
    destruct (pass_step env a path n) as [[[u|msg|] t] n']; cbn [fst snd] in *;
      try done.
    specialize (IH n'). unfold trace_of in IH.
    destruct (renewSecretPaths env a rest n') as [[r t'] n'']. cbn in *.
    by apply Forall_app.
Qed.

Lemma renewSecrets_loop_timer env a d order rest n :
  renewSecrets_loop env a d (SecretsTimerC order :: rest) n
  = match renewSecretPaths env a order n with
    | (Returned _, t, n') =>
        ((renewSecrets_loop env a d rest n').1.1,
         EvTimerC :: t ++ EvTimerReset d
           :: (renewSecrets_loop env a d rest n').1.2,
         (renewSecrets_loop env a d rest n').2)
    | (Panicked msg, t, n') => (Panicked msg, EvTimerC :: t, n')
    | (Blocked, t, n') => (Blocked, EvTimerC :: t, n')
    end.
Proof.
  cbn [renewSecrets_loop]. run_code.
  destruct (renewSecretPaths env a order n) as [[[u|msg|] t] n']; try done.
  by destruct (renewSecrets_loop env a d rest n') as [[r t'] n''].
Qed.

Lemma renewSecrets_unfold env a sched n c :
  cfg a = Some c ->
  renewSecrets env a sched n
  = let d := time.seconds (RenewSecretsPeriod (Vault c)) in
    match renewSecrets_loop env a d sched n with
    | (Blocked, t, n') => (Blocked, EvNewTimer d :: t, n')
    | (r, t, n') => (r, EvNewTimer d :: t ++ [EvWgDone], n')
    end.
Proof.
  intros Hc. unfold renewSecrets. rewrite Hc. run_code.
  by destruct (renewSecrets_loop env a _ sched n) as [[[u|msg|] t] n'].
Qed.

Lemma timer_periods_app t1 t2 :
  timer_periods (t1 ++ t2) = timer_periods t1 ++ timer_periods t2.
Proof. unfold timer_periods. apply omap_app. Qed.

Lemma timer_periods_quiet t :
  Forall (fun e => timer_event e = false) t -> timer_periods t = [].
Proof.
  induction 1 as [|e t He _ IH]; [done|].
  unfold timer_periods in *. cbn. rewrite IH. by destruct e.
Qed.

(** Every [Reset] in the loop uses the duration computed before it. *)
Lemma renewSecrets_loop_periods env a d sched n :
  Forall (fun d' => d' = d)
    (timer_periods (trace_of (renewSecrets_loop env a d sched n))).
Proof.
  revert n. induction sched as [|[|order] rest IH]; intros n.
  - constructor.
  - constructor.
  - rewrite renewSecrets_loop_timer.
    pose proof (renewSecretPaths_quiet env a order n) as Hq.
    unfold trace_of in *.
    destruct (renewSecretPaths env a order n) as [[[u|msg|] t] n'];
      cbn [fst snd] in *.
    + change (EvTimerC :: t ++ EvTimerReset d :: ?r)
        with ([EvTimerC] ++ t ++ [EvTimerReset d] ++ r).
      rewrite !timer_periods_app, (timer_periods_quiet t Hq). cbn.
      constructor; [done|]. apply IH.
    + change (EvTimerC :: t) with ([EvTimerC] ++ t).
      rewrite timer_periods_app, (timer_periods_quiet t Hq). constructor.
    + change (EvTimerC :: t) with ([EvTimerC] ++ t).
      rewrite timer_periods_app, (timer_periods_quiet t Hq). constructor.
Qed.

Lemma int64_wrap_in_range z : in_int64 (int64_wrap z).
Proof.
  unfold in_int64, int64_wrap, int64_min, int64_max.
  pose proof (Z.mod_pos_bound (z + 2 ^ 63) (2 ^ 64)). lia.
Qed.

Lemma int64_wrap_id z : in_int64 z -> int64_wrap z = z.
Proof.
  unfold in_int64, int64_wrap, int64_min, int64_max. intros Hz.
  rewrite Z.mod_small; lia.
Qed.

(** Periods of up to 9223372036 seconds, either sign, convert exactly. *)
Lemma seconds_exact P :
  -9223372036 <= P <= 9223372036 -> time.seconds P = P * time.Second.
Proof.
  intros HP. unfold time.seconds, int64_mul. apply int64_wrap_id.
  unfold in_int64, int64_min, int64_max, time.Second. lia.
Qed.

Lemma login_case_ok env a method newAuth c h s n :
  cfg a = Some c ->
  newAuth (Username (Vault c)) (Password (Vault c)) = (h, None) ->
  Auth_Login env (client a) h = (s, None) ->
  login_case env a method newAuth n
  = (Returned (set_secret a s, None),
     [EvNewAuth method (Username (Vault c)); EvLogin method;
      EvLog "INFO" "createVaultAgent" method], n).
Proof.
  intros Hc Hauth Hlogin. unfold login_case. rewrite Hc. run_code.
  rewrite Hauth. run_code. rewrite Hlogin. reflexivity.
Qed.

(** With a decoded configuration and a store that accepts the login,
    [New] returns an agent carrying that configuration unchanged. *)
Lemma New_ok env fns n c mk h cl s tok :
  os_IsNotExist (os_Stat env (configFile (applied_opts fns))) = false ->
  hclsimple_DecodeFile env (configFile (applied_opts fns)) = (c, None) ->
  vault_NewClient env (Server (Vault c)) = (Some cl, None) ->
  auth_constructor env (AuthMethod (Vault c)) = Some mk ->
  mk (Username (Vault c)) (Password (Vault c)) = (h, None) ->
  Auth_Login env (Some cl) h = (s, None) ->
  Secret_TokenID env s = (tok, None) ->
  exists tr,
    New env fns n
    = (Returned
         (Some {| opts := applied_opts fns; cfg := Some c;
                  client := Some {| Address := Address cl; Token := tok |};
                  secret := s; secretSync := newSecretSync |}, None),
       tr, n).
Proof.
  intros Hstat Hdecode Hclient Hmk Hauth Hlogin Htoken.
  unfold New, loadConfig, createVaultAgent. fold (applied_opts fns).
  run_agent. rewrite Hstat, Hdecode. run_agent. rewrite Hclient. run_agent.
  unfold auth_constructor in Hmk.
  set (a1 := {| opts := applied_opts fns; cfg := Some c; client := Some cl;
                secret := None; secretSync := newSecretSync |}).
  assert (forall method,
            login_case env a1 method mk n
            = (Returned (set_secret a1 s, None),
               [EvNewAuth method (Username (Vault c)); EvLogin method;
                EvLog "INFO" "createVaultAgent" method], n)) as Hcase.
  { intros method. by apply login_case_ok with h. }
  destruct (String.eqb (AuthMethod (Vault c)) "approle");
    [|destruct (String.eqb (AuthMethod (Vault c)) "ldap");
      [|destruct (String.eqb (AuthMethod (Vault c)) "userpass");
        [|discriminate]]];
    injection Hmk as <-; rewrite Hcase; subst a1; run_agent;
    rewrite Htoken; run_agent; eexists; reflexivity.
Qed.

(** C10.  [New] does not look at [renew_secrets_period]: when the file
    decodes and the login succeeds, a zero or negative period is accepted
    and kept as it is, and the refresh loop arms its timer, first and at
    every reset, with that value multiplied by [time.Second] (a
    non-positive duration whenever the product fits in 64 bits). *)
Theorem New_accepts_nonpositive_period
    (env : Env) (fns : list AgentOptFunc) (n : nat) (c : config)
    (mk : string -> string -> option AuthHandle * option error)
    (h : option AuthHandle) (cl : Client) (s : option Secret) (tok : string)
    (Hstat : os_IsNotExist (os_Stat env (configFile (applied_opts fns)))
             = false)
    (Hdecode : hclsimple_DecodeFile env (configFile (applied_opts fns))
               = (c, None))
    (Hperiod : RenewSecretsPeriod (Vault c) <= 0)
    (Hclient : vault_NewClient env (Server (Vault c)) = (Some cl, None))
    (Hmk : auth_constructor env (AuthMethod (Vault c)) = Some mk)
    (Hauth : mk (Username (Vault c)) (Password (Vault c)) = (h, None))
    (Hlogin : Auth_Login env (Some cl) h = (s, None))
    (Htoken : Secret_TokenID env s = (tok, None)) :
  exists a tr,
    New env fns n = (Returned (Some a, None), tr, n) /\
    cfg a = Some c /\
    (forall sched m,
       head (trace_of (renewSecrets env a sched m))
       = Some (EvNewTimer (time.seconds (RenewSecretsPeriod (Vault c)))) /\
       Forall (fun d => d = time.seconds (RenewSecretsPeriod (Vault c)))
         (timer_periods (trace_of (renewSecrets env a sched m)))) /\
    (-9223372036 <= RenewSecretsPeriod (Vault c) ->
     time.seconds (RenewSecretsPeriod (Vault c))
     = RenewSecretsPeriod (Vault c) * time.Second /\
     time.seconds (RenewSecretsPeriod (Vault c)) <= 0).
Proof.
  destruct (New_ok env fns n c mk h cl s tok Hstat Hdecode Hclient Hmk Hauth
              Hlogin Htoken) as [tr Hnew].
  eexists _, tr. split; [exact Hnew|]. split; [reflexivity|]. split.
  - intros sched m. erewrite renewSecrets_unfold by reflexivity. cbv zeta.
    pose proof (renewSecrets_loop_periods env
      {| opts := applied_opts fns; cfg := Some c;
         client := Some {| Address := Address cl; Token := tok |};
         secret := s; secretSync := newSecretSync |}
      (time.seconds (RenewSecretsPeriod (Vault c))) sched m) as Hloop.
    unfold trace_of in *.
    destruct (renewSecrets_loop env _ _ sched m) as [[[u|msg|] t] m'];
      cbn [fst snd] in *; (split; [reflexivity|]);
      change (EvNewTimer ?d :: ?r) with ([EvNewTimer d] ++ r);
      rewrite ?timer_periods_app; cbn; constructor; try done;
      rewrite ?app_nil_r; try done;
      apply Forall_app; by split.
  - intros Hlow. rewrite seconds_exact by lia. unfold time.Second. lia.
Qed.

Lemma New_accepts_nonpositive_period_witness :
  exists a tr,
    New (Ex.env "userpass" (-5)) [WithConfigFile "config.hcl"] 0%nat
    = (Returned (Some a, None), tr, 0%nat) /\
    cfg a = Some (Ex.vcfg "userpass" (-5)) /\
    head (trace_of (renewSecrets (Ex.env "userpass" (-5)) a
                      [SecretsTimerC []; SecretsCtxDone] 0%nat))
    = Some (EvNewTimer (-5000000000)).
Proof.
  destruct (New_accepts_nonpositive_period
              (Ex.env "userpass" (-5)) [WithConfigFile "config.hcl"] 0%nat
              (Ex.vcfg "userpass" (-5))
              (userpass_NewUserpassAuth (Ex.env "userpass" (-5)))
              (Some (UserpassAuth "go" "secret"))
              {| Address := "http://localhost:8200"; Token := "" |}
              (Some Ex.login_secret) "s.token"
              eq_refl eq_refl ltac:(cbn; lia) eq_refl eq_refl eq_refl
              eq_refl eq_refl)
    as (a & tr & Hnew & Hcfg & Hloop & _).
  exists a, tr. split; [exact Hnew|]. split; [exact Hcfg|].
  exact (proj1 (Hloop [SecretsTimerC []; SecretsCtxDone] 0%nat)).
Defined.

(* ===================================================================== *)
(** ** Cancellation *)
(* ===================================================================== *)

Lemma renewAuthToken_loop_renew info rest n :
  renewAuthToken_loop (AuthRenewCh info :: rest) n
  = match RenewedSecret info with
    | None => (Panicked nil_deref, [EvWatcherRenew], n)
    | Some s =>
        match Auth s with
        | None => (Panicked nil_deref, [EvWatcherRenew], n)
        | Some _ =>
            ((renewAuthToken_loop rest n).1.1,
             EvWatcherRenew :: EvLog "INFO" "renewAuthToken" "renewed"
               :: (renewAuthToken_loop rest n).1.2,
             (renewAuthToken_loop rest n).2)
        end
    end.
Proof.
  cbn [renewAuthToken_loop].
  destruct (RenewedSecret info) as [s|]; run_code; [|done].
  destruct (Auth s) as [au|]; run_code; [|done].
  by destruct (renewAuthToken_loop rest n) as [[r t] n'].
Qed.

Lemma renewAuthToken_unfold env a sched n :
  renewAuthToken env a sched n
  = match Client_NewLifetimeWatcher env (client a) (secret a) with
    | Some err =>
        (Returned
           (Some ("unable to initialize auth token lifetime watcher: "
                  +:+ err)),
         [EvNewWatcher; EvWgDone], n)
    | None =>
        match renewAuthToken_loop sched n with
        | (Blocked, t, n') =>
            (Blocked, EvNewWatcher :: EvGo GoWatcherStart :: t, n')
        | (r, t, n') =>
            (r, EvNewWatcher :: EvGo GoWatcherStart :: t
                  ++ [EvWatcherStop; EvWgDone], n')
        end
    end.
Proof.
  unfold renewAuthToken.
  destruct (Client_NewLifetimeWatcher env (client a) (secret a)); [done|].
  run_code.
  destruct (renewAuthToken_loop sched n) as [[[u|msg|] t] n']; try done;
    cbn [app]; by rewrite <- app_assoc.
Qed.

(** A lease loop waiting in its [select] that takes the cancellation case
    logs and returns nil. *)
Lemma renewAuthToken_loop_cancel pre rest n t m :
  renewAuthToken_loop pre n = (Blocked, t, m) ->
  renewAuthToken_loop (pre ++ AuthCtxDone :: rest) n
  = (Returned None,
     t ++ [EvCtxDone; EvLog "INFO" "renewAuthToken" "cancel"], m).
Proof.
  revert t. induction pre as [|[|err|info] pre IH]; intros t.
  - cbn. by intros [= <- <-].
  - done.
  - done.
  - cbn [app]. rewrite !renewAuthToken_loop_renew.
    destruct (RenewedSecret info) as [s|]; [|done].
    destruct (Auth s) as [au|]; [|done].
    destruct (renewAuthToken_loop pre n) as [[r t'] n'] eqn:Hpre.
    cbn [fst snd]. intros [= -> <- ->]. by rewrite (IH t').
Qed.

(** The same for the refresh loop. *)
Lemma renewSecrets_loop_cancel env a d pre rest n t m :
  renewSecrets_loop env a d pre n = (Blocked, t, m) ->
  renewSecrets_loop env a d (pre ++ SecretsCtxDone :: rest) n
  = (Returned None,
     t ++ [EvCtxDone; EvLog "INFO" "reneswSecrets" "cancel"], m).
Proof.
  revert n t. induction pre as [|[|order] pre IH]; intros n t.
  - cbn. by intros [= <- <-].
  - done.
  - cbn [app]. rewrite !renewSecrets_loop_timer.
    pose proof (renewSecretPaths_not_blocked env a order n) as Hnb.
    destruct (renewSecretPaths env a order n) as [[[u|msg|] tp] n1];
      [|done|by destruct Hnb].
    destruct (renewSecrets_loop env a d pre n1) as [[r t'] n'] eqn:Hpre.
    cbn [fst snd]. intros [= -> <- ->]. rewrite (IH _ t') by done.
    cbn [fst snd app]. by rewrite <- app_assoc.
Qed.

(** C8.  When either loop is waiting in its [select] and the cancellation
    case is taken, the loop returns nil: the lease loop logs, stops its
    watcher and signals the wait group; the refresh loop logs and signals
    the wait group.  Nothing else happens after the cancellation. *)
Theorem cancellation_returns_nil
    (env : Env) (a : Agent)
    (pre1 rest1 : list AuthSelect) (pre2 rest2 : list SecretsSelect)
    (n1 n2 m1 m2 : nat) (t1 t2 : list Event)
    (Hwait1 : renewAuthToken env a pre1 n1 = (Blocked, t1, m1))
    (Hwait2 : renewSecrets env a pre2 n2 = (Blocked, t2, m2)) :
  renewAuthToken env a (pre1 ++ AuthCtxDone :: rest1) n1
  = (Returned None,
     t1 ++ [EvCtxDone; EvLog "INFO" "renewAuthToken" "cancel";
            EvWatcherStop; EvWgDone], m1) /\
  renewSecrets env a (pre2 ++ SecretsCtxDone :: rest2) n2
  = (Returned None,
     t2 ++ [EvCtxDone; EvLog "INFO" "reneswSecrets" "cancel"; EvWgDone],
     m2).
Proof.
  split.
  - rewrite renewAuthToken_unfold in Hwait1 |- *.
    destruct (Client_NewLifetimeWatcher env (client a) (secret a)); [done|].
    destruct (renewAuthToken_loop pre1 n1) as [[[u|msg|] t] n'] eqn:Hloop;
      try done.
    injection Hwait1 as <- <-.
    rewrite (renewAuthToken_loop_cancel _ rest1 _ _ _ Hloop).
    cbn [app]. by rewrite <- app_assoc.
  - unfold renewSecrets in Hwait2 |- *.
    destruct (cfg a) as [c|] eqn:Hc; [|done].
    revert Hwait2. run_code.
    destruct (renewSecrets_loop env a _ pre2 n2) as [[[u|msg|] t] n'] eqn:Hloop;
      try done.
    intros [= <- <-].
    rewrite (renewSecrets_loop_cancel _ _ _ _ rest2 _ _ _ Hloop).
    cbn [app]. by rewrite <- app_assoc.
Qed.

Lemma cancellation_returns_nil_witness :
  renewAuthToken (Ex.env "userpass" 30) (Ex.agent_xy 30)
    ([AuthRenewCh {| RenewedSecret := Some Ex.login_secret |}]
       ++ AuthCtxDone :: [AuthDoneCh None]) 0%nat
  = (Returned None,
     [EvNewWatcher; EvGo GoWatcherStart; EvWatcherRenew;
      EvLog "INFO" "renewAuthToken" "renewed"]
     ++ [EvCtxDone; EvLog "INFO" "renewAuthToken" "cancel";
         EvWatcherStop; EvWgDone], 0%nat) /\
  renewSecrets (Ex.env "userpass" 30) (Ex.agent_xy 30)
    ([SecretsTimerC ["secrets/data/x/y"]]
       ++ SecretsCtxDone :: [SecretsTimerC ["secrets/data/x/y"]]) 0%nat
  = (Returned None,
     [EvNewTimer 30000000000; EvTimerC; EvRead "secrets/data/x/y";
      EvUpdateSecret 1%nat "secrets/data/x/y" "user" (VString "alice");
      EvUpdateSecret 2%nat "secrets/data/x/y" "user" (VString "alice");
      EvUpdateSecret 1%nat "secrets/data/x/y" "password" (VString "p1");
      EvUpdateSecret 2%nat "secrets/data/x/y" "password" (VString "p1");
      EvLog "INFO" "renewSecrets" "secrets/data/x/y";
      EvTimerReset 30000000000]
     ++ [EvCtxDone; EvLog "INFO" "reneswSecrets" "cancel"; EvWgDone],
     1%nat).
Proof.
  apply (cancellation_returns_nil (Ex.env "userpass" 30) (Ex.agent_xy 30));
    vm_compute; reflexivity.
Defined.

(* ===================================================================== *)
(** ** Timing of the refresh passes *)
(* ===================================================================== *)

Lemma renewSecrets_loop_shape env a d sched n :
  loop_shape d (trace_of (renewSecrets_loop env a d sched n)).
Proof.
  revert n. induction sched as [|[|order] rest IH]; intros n.
  - apply shape_idle. constructor.
  - apply shape_idle. by repeat constructor.
  - rewrite renewSecrets_loop_timer.
    pose proof (renewSecretPaths_quiet env a order n) as Hq.
    unfold trace_of in *.
    destruct (renewSecretPaths env a order n) as [[[u|msg|] t] n'];
      cbn [fst snd] in *.
    + apply shape_pass; [done|apply IH].
    + by apply shape_broken.
    + by apply shape_broken.
Qed.

Lemma loop_shape_app_idle d tr t :
  loop_shape d tr ->
  Forall (fun e => timer_event e = false /\ pass_work e = false) t ->
  loop_shape d (tr ++ t).
Proof.
  intros Hshape Ht. induction Hshape as [t0 H0|t0 rest H0 _ IH|t0 H0].
  - apply shape_idle. by apply Forall_app.
  - cbn [app]. rewrite <- app_assoc. cbn [app]. by apply shape_pass.
  - cbn [app]. apply shape_broken. apply Forall_app. split; [done|].
    eapply Forall_impl; [exact Ht|]. by intros e [? _].
Qed.

(** The whole call: the timer is created, then the loop runs. *)
Lemma renewSecrets_shape env a sched n c :
  cfg a = Some c ->
  exists rest,
    trace_of (renewSecrets env a sched n)
    = EvNewTimer (time.seconds (RenewSecretsPeriod (Vault c))) :: rest /\
    loop_shape (time.seconds (RenewSecretsPeriod (Vault c))) rest.
Proof.
  intros Hc. rewrite (renewSecrets_unfold _ _ _ _ _ Hc). cbv zeta.
  pose proof (renewSecrets_loop_shape env a
                (time.seconds (RenewSecretsPeriod (Vault c))) sched n) as Hs.
  unfold trace_of in *.
  destruct (renewSecrets_loop env a _ sched n) as [[[u|msg|] t] n'];
    cbn [fst snd] in *; eexists; (split; [reflexivity|]); try done;
    apply loop_shape_app_idle; try done; by repeat constructor.
Qed.

Section Timed.

Implicit Types (tt : list (Z * Event)) (now : Z) (dl : option Z).

Lemma quiet_of_fmap tt :
  Forall (fun e => timer_event e = false) tt.*2 -> quiet tt.
Proof. unfold quiet. by rewrite Forall_fmap. Qed.

Lemma pass_end_app_quiet tt1 tt2 :
  quiet tt1 -> pass_end (tt1 ++ tt2) = pass_end tt2.
Proof.
  induction 1 as [|[t e] tt1 He _ IH]; [done|].
  cbn in *. by destruct e.
Qed.

Lemma pass_spans_app_quiet tt1 tt2 :
  quiet tt1 -> pass_spans (tt1 ++ tt2) = pass_spans tt2.
Proof.
  induction 1 as [|[t e] tt1 He _ IH]; [done|].
  cbn in *. by destruct e.
Qed.

Lemma pass_spans_quiet tt : quiet tt -> pass_spans tt = [].
Proof.
  intros Hq. rewrite <- (app_nil_r tt). by rewrite pass_spans_app_quiet.
Qed.

(** The clock has not gone back across events that leave the timer
    alone, and the timer is as it was. *)
Lemma runtime_ok_app_quiet dl now tt1 tt2 :
  quiet tt1 ->
  runtime_ok dl now (tt1 ++ tt2) = true ->
  exists now', now <= now' /\ runtime_ok dl now' tt2 = true.
Proof.
  intros Hq. revert now. induction Hq as [|[t e] tt1 He _ IH]; intros now.
  - exists now. split; [lia|done].
  - cbn [app runtime_ok]. intros [Hle Hrest]%andb_true_iff.
    apply Z.leb_le in Hle.
    assert (runtime_ok dl t (tt1 ++ tt2) = true) as Hok
      by (by destruct e).
    destruct (IH _ Hok) as (now' & Hnow' & Hok'). exists now'.
    split; [lia|done].
Qed.

Lemma passes_separated_cons period s oe spans :
  (forall s2 oe2, head spans = Some (s2, oe2) ->
     exists e1, oe = Some e1 /\ s <= e1 /\ e1 <= s2 /\ s + period <= s2) ->
  passes_separated period spans ->
  passes_separated period ((s, oe) :: spans).
Proof.
  intros Hhead Hrest [|i] s1 oe1 s2 oe2 H1 H2.
  - cbn in H1. injection H1 as -> ->. apply (Hhead s2 oe2).
    by destruct spans.
  - by apply (Hrest i s1 oe1 s2 oe2).
Qed.

(** Under the runtime's rules, the passes of a trace of the right shape
    do not overlap and start at least the armed duration apart. *)
Lemma loop_shape_separated d period tr :
  loop_shape d tr ->
  period <= d \/ period <= 0 ->
  forall tt dl now,
    tt.*2 = tr ->
    runtime_ok dl now tt = true ->
    passes_separated period (pass_spans tt) /\
    (forall s oe, head (pass_spans tt) = Some (s, oe) ->
       now <= s /\ forall expiry, dl = Some expiry -> expiry <= s).
Proof.
  intros Hshape Hperiod.
  induction Hshape as [t Ht|t rest Ht _ IH|t Ht]; intros tt dl now Htt Hok.
  - assert (quiet tt) as Hq.
    { apply quiet_of_fmap. rewrite Htt.
      eapply Forall_impl; [exact Ht|]. by intros e [? _]. }
    rewrite (pass_spans_quiet _ Hq). split; [by intros []|done].
  - apply fmap_cons_inv in Htt as ([s e0] & tt' & He0 & Htt' & ->).
    cbn in He0. subst e0. symmetry in Htt'.
    apply fmap_app_inv in Htt' as (tt1 & tt2' & Ht1 & Htt2 & ->).
    symmetry in Htt2.
    apply fmap_cons_inv in Htt2 as ([e e1] & tt2 & He1 & Hrest & ->).
    cbn in He1. subst e1.
    assert (quiet tt1) as Hq by (apply quiet_of_fmap; by rewrite <- Ht1).
    cbn [runtime_ok] in Hok. apply andb_true_iff in Hok as [Hnow Hok].
    apply Z.leb_le in Hnow.
    destruct dl as [dl0|]; [|done].
    apply andb_true_iff in Hok as [Hdl Hok]. apply Z.leb_le in Hdl.
    apply runtime_ok_app_quiet in Hok as (now' & Hnow' & Hok); [|done].
    cbn [runtime_ok] in Hok. apply andb_true_iff in Hok as [He Hok].
    apply Z.leb_le in He.
    destruct (IH tt2 (Some (e + d)) e (eq_sym Hrest) Hok) as [Hsep Hhead].
    cbn [pass_spans]. rewrite pass_end_app_quiet, pass_spans_app_quiet by done.
    cbn [pass_end pass_spans]. split.
    + apply passes_separated_cons; [|done].
      intros s2 oe2 Hs2. destruct (Hhead s2 oe2 Hs2) as [Hes2 Hdls2].
      specialize (Hdls2 _ eq_refl). exists e. repeat split; lia.
    + cbn. intros s' oe' [= <- <-]. split; [lia|].
      intros dl1 [= <-]. lia.
  - apply fmap_cons_inv in Htt as ([s e0] & tt' & He0 & Htt' & ->).
    cbn in He0. subst e0.
    assert (quiet tt') as Hq by (apply quiet_of_fmap; by rewrite <- Htt').
    cbn [runtime_ok] in Hok. apply andb_true_iff in Hok as [Hnow Hok].
    apply Z.leb_le in Hnow.
    destruct dl as [dl0|]; [|done].
    apply andb_true_iff in Hok as [Hdl Hok]. apply Z.leb_le in Hdl.
    cbn [pass_spans]. rewrite (pass_spans_quiet _ Hq). split.
    + intros [|i] s1 oe1 s2 oe2 H1 H2; done.
    + cbn. intros s' oe' [= <- <-]. split; [lia|].
      intros dl1 [= <-]. lia.
Qed.

End Timed.

(** C7, as the code has it.  For a configured period of at most
    9223372036 seconds (the largest whose nanosecond count fits in 64
    bits), the loop rearms its timer only after the pass it started has
    returned; under the runtime's timer rules two consecutive periodic
    passes never overlap, and their starts are at least the period apart,
    however long the first one takes. *)
Theorem renewSecrets_passes_separated
    (env : Env) (a : Agent) (sched : list SecretsSelect) (n : nat)
    (c : config) (tt : list (Z * Event)) (now : Z)
    (Hcfg : cfg a = Some c)
    (Hfits : RenewSecretsPeriod (Vault c) <= 9223372036)
    (Htrace : tt.*2 = trace_of (renewSecrets env a sched n))
    (Hclock : runtime_ok None now tt = true) :
  (exists rest,
     trace_of (renewSecrets env a sched n)
     = EvNewTimer (time.seconds (RenewSecretsPeriod (Vault c))) :: rest /\
     loop_shape (time.seconds (RenewSecretsPeriod (Vault c))) rest) /\
  passes_separated (RenewSecretsPeriod (Vault c) * time.Second)
    (pass_spans tt).
Proof.
  destruct (renewSecrets_shape env a sched n c Hcfg) as (rest & Htr & Hshape).
  split; [by exists rest|].
  rewrite Htr in Htrace.
  apply fmap_cons_inv in Htrace as ([t0 e0] & tt' & He0 & Hrest & ->).
  cbn in He0. subst e0.
  cbn [runtime_ok pass_spans] in *.
  apply andb_true_iff in Hclock as [_ Hclock].
  refine (proj1 (loop_shape_separated _ _ _ Hshape _ tt' _ _
                   (eq_sym Hrest) Hclock)).
  destruct (decide (RenewSecretsPeriod (Vault c) <= 0)) as [Hneg|Hpos].
  - right. unfold time.Second. lia.
  - left. rewrite seconds_exact by lia. lia.
Qed.

Lemma renewSecrets_passes_separated_witness :
  cfg (Ex.agent_xy 30) = Some (Ex.vcfg "userpass" 30) /\
  Ex.on_schedule.*2
  = trace_of (renewSecrets (Ex.env "userpass" 30) (Ex.agent_xy 30)
                [SecretsTimerC ["secrets/data/x/y"];
                 SecretsTimerC ["secrets/data/x/y"]] 0%nat) /\
  runtime_ok None 0 Ex.on_schedule = true /\
  pass_spans Ex.on_schedule
  = [(30000000010, Some 30000000050); (60000000060, Some 60000000100)] /\
  passes_separated (30 * time.Second) (pass_spans Ex.on_schedule).
Proof.
  assert (Ex.on_schedule.*2
          = trace_of (renewSecrets (Ex.env "userpass" 30) (Ex.agent_xy 30)
                        [SecretsTimerC ["secrets/data/x/y"];
                         SecretsTimerC ["secrets/data/x/y"]] 0%nat))
    as Htrace by (vm_compute; reflexivity).
  assert (runtime_ok None 0 Ex.on_schedule = true) as Hclock
    by (vm_compute; reflexivity).
  split; [reflexivity|]. split; [exact Htrace|]. split; [exact Hclock|].
  split; [reflexivity|].
  exact (proj2 (renewSecrets_passes_separated
                  (Ex.env "userpass" 30) (Ex.agent_xy 30) _ 0%nat
                  (Ex.vcfg "userpass" 30) Ex.on_schedule 0 eq_refl
                  ltac:(cbn; lia) Htrace Hclock)).
Defined.

(** C7 as stated does not hold for every period: with
    [renew_secrets_period = 9223372037] the product with [time.Second]
    wraps to a negative duration, the timer fires at once, and two passes
    that respect the runtime's rules start 50 nanoseconds apart. *)
Lemma passes_closer_than_period :
  cfg (Ex.agent_xy Ex.huge_period)
  = Some (Ex.vcfg "userpass" Ex.huge_period) /\
  time.seconds Ex.huge_period = -9223372036709551616 /\
  Ex.back_to_back.*2
  = trace_of (renewSecrets (Ex.env "userpass" Ex.huge_period)
                (Ex.agent_xy Ex.huge_period)
                [SecretsTimerC ["secrets/data/x/y"];
                 SecretsTimerC ["secrets/data/x/y"]] 0%nat) /\
  runtime_ok None 0 Ex.back_to_back = true /\
  pass_spans Ex.back_to_back = [(10, Some 50); (60, Some 100)] /\
  ~ passes_separated (Ex.huge_period * time.Second)
      (pass_spans Ex.back_to_back).
Proof.
  split; [reflexivity|]. split; [reflexivity|].
  split; [vm_compute; reflexivity|]. split; [vm_compute; reflexivity|].
  split; [reflexivity|].
  intros Hsep.
  destruct (Hsep 0%nat 10 (Some 50) 60 (Some 100) eq_refl eq_refl)
    as (e1 & _ & _ & _ & Hfar).
  unfold Ex.huge_period, time.Second in Hfar. lia.
Qed.

(* ===================================================================== *)
(** ** More on the registry *)
(* ===================================================================== *)

Lemma registered_for_cons L L' c regs :
  registered_for L ((L', c) :: regs)
  = (if decide (L' = L) then [c] else []) ++ registered_for L regs.
Proof. unfold registered_for. cbn. by destruct (decide (L' = L)). Qed.

Lemma lookup_register_all a regs L :
  receivers (secretSync (register_all a regs)) !! L
  = match registered_for L regs with
    | [] => receivers (secretSync a) !! L
    | c :: l => Some (receivers_at a L ++ c :: l)
    end.
Proof.
  revert a. induction regs as [|[L' c'] regs IH]; intros a; [done|].
  unfold register_all in *. cbn [foldl fst snd]. rewrite IH.
  rewrite registered_for_cons. destruct (decide (L' = L)) as [->|Hne].
  - rewrite receivers_at_Register_same. cbn [app].
    destruct (registered_for L regs) as [|c l].
    + unfold RegisterUpdateSecret. cbn. by rewrite lookup_insert_eq.
    + by rewrite <- app_assoc.
  - cbn [app]. rewrite receivers_at_Register_other by done.
    destruct (registered_for L regs) as [|c l]; [|done].
    unfold RegisterUpdateSecret. cbn. by rewrite lookup_insert_ne.
Qed.

(** X1.  After any history of registrations, the list stored for a
    location is what was there before followed by the receivers the
    history registers for it, in order; a location the history never
    names keeps its entry, or its absence; and nothing but the registry
    changes in the agent. *)
Theorem register_all_lookup
    (a : Agent) (regs : list (string * SecretReceiver)) (L : string) :
  receivers (secretSync (register_all a regs)) !! L
  = match registered_for L regs with
    | [] => receivers (secretSync a) !! L
    | c :: l => Some (receivers_at a L ++ c :: l)
    end /\
  receivers_at (register_all a regs) L
  = receivers_at a L ++ registered_for L regs /\
  (opts (register_all a regs), cfg (register_all a regs),
   client (register_all a regs), secret (register_all a regs))
  = (opts a, cfg a, client a, secret a).
Proof.
  split; [apply lookup_register_all|]. split.
  - unfold receivers_at at 1. rewrite lookup_register_all.
    destruct (registered_for L regs) as [|c l]; [|done].
    by rewrite app_nil_r.
  - revert a. induction regs as [|[L' c'] regs IH]; intros a; [done|].
    unfold register_all in *. cbn [foldl fst snd]. by rewrite IH.
Qed.

(** X2.  Starting from the empty registry [New] creates, a location is in
    the map exactly when some receiver was registered for it, and no
    location is ever mapped to an empty list: [range] over the map visits
    the locations with at least one receiver and no others. *)
Theorem registry_has_no_empty_entry
    (a : Agent) (regs : list (string * SecretReceiver)) (L : string)
    (Hnew : receivers (secretSync a) = ∅) :
  (is_Some (receivers (secretSync (register_all a regs)) !! L)
   <-> L ∈ regs.*1) /\
  (forall l, receivers (secretSync (register_all a regs)) !! L = Some l ->
             l <> [] /\ l = registered_for L regs).
Proof.
  assert (registered_for L regs <> [] <-> L ∈ regs.*1) as Hin.
  { induction regs as [|[L' c'] regs IH]; [set_solver|].
    rewrite registered_for_cons, fmap_cons, elem_of_cons. cbn [fst].
    destruct (decide (L' = L)) as [->|Hne]; cbn [app].
    - split; [by left|done].
    - rewrite IH. split; [by right|]. by intros [->|?]. }
  rewrite lookup_register_all. unfold receivers_at. rewrite Hnew, lookup_empty.
  cbn [default app].
  destruct (registered_for L regs) as [|c l] eqn:Hreg.
  - split; [|done]. rewrite <- Hin. split; [by intros [? ?]|done].
  - split; [|by intros ? [= <-]]. rewrite <- Hin. split; [done|by eexists].
Qed.

Lemma registry_has_no_empty_entry_witness :
  receivers (secretSync (register_all (Ex.agent 30) Ex2.regs))
    !! "secrets/data/netpush/redis" = Some [1%nat; 3%nat] /\
  [1%nat; 3%nat] <> [] /\
  [1%nat; 3%nat] = registered_for "secrets/data/netpush/redis" Ex2.regs.
Proof.
  assert (receivers (secretSync (register_all (Ex.agent 30) Ex2.regs))
            !! "secrets/data/netpush/redis" = Some [1%nat; 3%nat]) as Hl
    by (vm_compute; reflexivity).
  split; [exact Hl|].
  exact (proj2 (registry_has_no_empty_entry (Ex.agent 30) Ex2.regs
                  "secrets/data/netpush/redis" eq_refl) _ Hl).
Defined.

(** X3.  Registrations for different locations commute: the agent is the
    same whichever is made first. *)
Theorem Register_commutes
    (a : Agent) (L1 L2 : string) (c1 c2 : SecretReceiver)
    (Hne : L1 <> L2) :
  RegisterUpdateSecret (RegisterUpdateSecret a L1 c1) L2 c2
  = RegisterUpdateSecret (RegisterUpdateSecret a L2 c2) L1 c1.
Proof.
  unfold RegisterUpdateSecret at 1 3.
  rewrite !receivers_at_Register_other by done.
  unfold RegisterUpdateSecret, set_receivers. cbn. f_equal. f_equal.
  by apply insert_insert_ne.
Qed.

Lemma Register_commutes_witness :
  RegisterUpdateSecret
    (RegisterUpdateSecret (Ex.agent 30) "secrets/data/netpush/redis" 1%nat)
    "secrets/data/netpush/netbox" 2%nat
  = RegisterUpdateSecret
      (RegisterUpdateSecret (Ex.agent 30) "secrets/data/netpush/netbox"
         2%nat)
      "secrets/data/netpush/redis" 1%nat.
Proof.
  apply (Register_commutes (Ex.agent 30)). discriminate.
Defined.

(** X4.  A dispatch makes one callback per field and registration:
    as many as the product of the two counts. *)
Theorem dispatch_number_of_calls
    (a : Agent) (L : string) (fields : list (string * value)) (n : nat) :
  length (trace_of (dispatch a L fields n))
  = (length fields * length (receivers_at a L))%nat.
Proof.
  rewrite dispatch_run. unfold trace_of, dispatch_calls. cbn [fst snd].
  induction fields as [|kv fields IH]; [done|].
  rewrite bind_cons, length_app, IH. unfold setSecret_calls.
  rewrite length_fmap. cbn [length]. lia.
Qed.

(* ===================================================================== *)
(** ** More on the refresh pass *)
(* ===================================================================== *)

Lemma readable_unique env n path f1 f2 :
  readable env n path f1 -> readable env n path f2 -> f1 = f2.
Proof. intros (s1 & Hs1 & Hd1) (s2 & Hs2 & Hd2). congruence. Qed.

Lemma pass_event_ok_mono env a order order' n n' e :
  (forall L, L ∈ order -> L ∈ order') -> (n' <= n)%nat ->
  pass_event_ok env a order n e -> pass_event_ok env a order' n' e.
Proof.
  intros Hsub Hle. destruct e; cbn; try done; try by apply Hsub.
  intros (HL & Hr & m & fields & Hm & Hrd & Hkv).
  split; [by apply Hsub|]. split; [done|]. exists m, fields.
  split; [lia|done].
Qed.

Lemma pass_step_events env a path n :
  Forall (pass_event_ok env a [path] n) (pass_step env a path n).1.2.
Proof.
  assert (path ∈ [path]) as Hin by by apply list_elem_of_singleton.
  unfold pass_step.
  destruct (Logical_Read env n path) as [[s|] err] eqn:Hread; cbn [fst snd];
    [|by repeat constructor].
  destruct (Data s !! "data") as [[| | | | |fields]|] eqn:Hd;
    try by repeat constructor.
  assert (Forall (pass_event_ok env a [path] n)
            (dispatch_calls a path fields)) as Hcalls.
  { apply Forall_forall. intros e He.
    apply elem_of_dispatch_calls in He as (r & k & v & -> & Hr & Hkv).
    cbn. split; [done|]. split; [done|]. exists n, fields.
    split; [lia|]. split; [|done]. exists s. by rewrite Hread. }
  destruct (cfg a); cbn [fst snd]; constructor; try done.
  apply Forall_app. split; [done|]. by repeat constructor.
Qed.

Lemma renewSecretPaths_events env a order n :
  Forall (pass_event_ok env a order n)
    (trace_of (renewSecretPaths env a order n)).
Proof.
  revert n. induction order as [|path rest IH]; intros n; [constructor|].
  rewrite renewSecretPaths_cons. unfold bind, trace_of.
  pose proof (pass_step_events env a path n) as Hstep.
  assert (Forall (pass_event_ok env a (path :: rest) n)
            (pass_step env a path n).1.2) as Hstep'.
  { eapply Forall_impl; [exact Hstep|]. intros e.
    apply pass_event_ok_mono; [|lia].
    intros L ->%list_elem_of_singleton. apply elem_of_cons. by left. }
  destruct (pass_step env a path n) as [[[u|msg|] t] n1] eqn:Hs;
    cbn [fst snd] in *; try done.
  apply pass_step_returned_inv in Hs as (_ & _ & -> & _).
  specialize (IH (S n)). unfold trace_of in IH.
  destruct (renewSecretPaths env a rest (S n)) as [[r t'] n'']. cbn in *.
  apply Forall_app. split; [done|].
  eapply Forall_impl; [exact IH|]. intros e.
  apply pass_event_ok_mono; [|lia].
  intros L HL. apply elem_of_cons. by right.
Qed.

(** X5.  Whatever the store answers and however the pass ends, a pass
    emits nothing but reads of the locations it visits, callbacks, and its
    log line; every callback goes to a receiver registered for the
    location being dispatched, a key of the receiver map, and carries a
    field the store answered for that location; a pass never logs in and
    never touches the timer, the watcher or the wait group. *)
Theorem pass_calls_only_registered
    (env : Env) (a : Agent) (order : list string) (n : nat) :
  Forall (pass_event_ok env a order n)
    (trace_of (renewSecretPaths env a order n)) /\
  (forall r L k v,
     EvUpdateSecret r L k v ∈ trace_of (renewSecretPaths env a order n) ->
     r ∈ receivers_at a L /\
     is_Some (receivers (secretSync a) !! L)) /\
  Forall (fun e => is_login e = false /\ timer_event e = false /\
                   is_wg_done e = false /\ is_watcher_stop e = false)
    (trace_of (renewSecretPaths env a order n)).
Proof.
  pose proof (renewSecretPaths_events env a order n) as Hev.
  split; [exact Hev|]. split.
  - intros r L k v Hin. rewrite Forall_forall in Hev.
    apply Hev in Hin as (_ & Hr & _). split; [done|].
    unfold receivers_at in Hr.
    destruct (receivers (secretSync a) !! L); [done|].
    by apply elem_of_nil in Hr.
  - eapply Forall_impl; [exact Hev|]. intros e He. by destruct e.
Qed.

Lemma reads_of_app t1 t2 : reads_of (t1 ++ t2) = reads_of t1 ++ reads_of t2.
Proof. unfold reads_of. apply omap_app. Qed.

Lemma reads_of_setSecret_calls a path k v :
  reads_of (setSecret_calls a path k v) = [].
Proof.
  unfold setSecret_calls, reads_of.
  by induction (receivers_at a path) as [|r l IHl].
Qed.

Lemma reads_of_dispatch_calls a path fields :
  reads_of (dispatch_calls a path fields) = [].
Proof.
  unfold dispatch_calls.
  induction fields as [|kv fields IH]; [done|].
  by rewrite bind_cons, reads_of_app, IH, app_nil_r,
    reads_of_setSecret_calls.
Qed.

Lemma pass_step_reads env a path n :
  reads_of (pass_step env a path n).1.2 = [path] /\
  (pass_step env a path n).2 = S n.
Proof.
  unfold pass_step.
  destruct (Logical_Read env n path) as [[s|] err]; cbn [fst snd]; [|done].
  destruct (Data s !! "data") as [[| | | | |fields]|]; try done.
  destruct (cfg a); cbn [fst snd];
    change (EvRead path :: ?r) with ([EvRead path] ++ r);
    by rewrite ?reads_of_app, reads_of_dispatch_calls.
Qed.

(** X6.  A pass reads the store once per location, in the order [range]
    visits them, and stops reading where it panics: the locations read are
    a prefix of the visiting order, all of it when the pass returns, and
    the read counter advances by their number. *)
Theorem pass_reads_in_order
    (env : Env) (a : Agent) (order : list string) (n : nat) :
  reads_of (trace_of (renewSecretPaths env a order n)) `prefix_of` order /\
  (renewSecretPaths env a order n).2
  = (n + length (reads_of (trace_of (renewSecretPaths env a order n))))%nat /\
  (outcome_of (renewSecretPaths env a order n) = Returned tt ->
   reads_of (trace_of (renewSecretPaths env a order n)) = order).
Proof.
  revert n. induction order as [|path rest IH]; intros n.
  - cbn. split; [done|]. split; [lia|done].
  - rewrite renewSecretPaths_cons. unfold bind, trace_of, outcome_of.
    destruct (pass_step_reads env a path n) as [Hreads Hn].
    destruct (pass_step env a path n) as [[[u|msg|] t] n1];
      cbn [fst snd] in *; subst n1.
    + destruct (IH (S n)) as (Hpre & Hcount & Hall).
      unfold trace_of, outcome_of in *.
      destruct (renewSecretPaths env a rest (S n)) as [[r t'] n''].
      cbn [fst snd] in *. rewrite reads_of_app, Hreads. cbn [app length].
      split; [by apply prefix_cons|]. split; [lia|].
      intros Hr. by rewrite Hall.
    + rewrite Hreads. split; [by apply prefix_cons, prefix_nil|].
      split; [cbn; lia|done].
    + rewrite Hreads. split; [by apply prefix_cons, prefix_nil|].
      split; [cbn; lia|done].
Qed.

Lemma updates_for_app L t1 t2 :
  updates_for L (t1 ++ t2) = updates_for L t1 ++ updates_for L t2.
Proof. unfold updates_for. apply List.filter_app. Qed.

Lemma updates_for_dispatch_same a L fields :
  updates_for L (dispatch_calls a L fields) = dispatch_calls a L fields.
Proof.
  unfold updates_for. apply forallb_filter_id. apply forallb_forall.
  intros e He%list_elem_of_In.
  apply elem_of_dispatch_calls in He as (r & k & v & -> & _).
  cbn. apply String.eqb_refl.
Qed.

Lemma updates_for_absent L tr :
  (forall r k v, EvUpdateSecret r L k v ∉ tr) -> updates_for L tr = [].
Proof.
  unfold updates_for. induction tr as [|e tr IH]; intros Hnot; [done|].
  cbn [List.filter].
  destruct (is_update_for L e) eqn:He.
  - destruct e; try discriminate. cbn in He.
    apply String.eqb_eq in He as ->. destruct (Hnot r fieldName v).
    apply elem_of_cons. by left.
  - apply IH. intros r k v Hin. apply (Hnot r k v).
    apply elem_of_cons. by right.
Qed.

Lemma updates_for_dispatch_other a L L' fields :
  L' <> L -> updates_for L (dispatch_calls a L' fields) = [].
Proof.
  intros Hne. apply updates_for_absent. intros r k v Hin.
  apply elem_of_dispatch_calls in Hin as (? & ? & ? & [= _ <- _ _] & _).
  done.
Qed.

Lemma updates_for_pass_absent env a order n L :
  L ∉ order -> updates_for L (trace_of (renewSecretPaths env a order n)) = [].
Proof.
  intros Hnot. apply updates_for_absent. intros r k v Hin.
  pose proof (renewSecretPaths_events env a order n) as Hev.
  rewrite Forall_forall in Hev. apply Hev in Hin as [HL _]. done.
Qed.

(** X7.  In a pass that returns, over distinct locations, each visited
    location is dispatched exactly once: the callbacks made for the
    location visited in position [i] are, in order, those of one dispatch
    of the fields the store answered at read [n + i]; a location that is
    not visited gets no callback. *)
Theorem pass_dispatches_each_location_once
    (env : Env) (a : Agent) (order : list string) (n : nat)
    (Hdistinct : NoDup order)
    (Hret : outcome_of (renewSecretPaths env a order n) = Returned tt) :
  (forall (i : nat) L, order !! i = Some L ->
     exists fields,
       readable env (n + i) L fields /\
       updates_for L (trace_of (renewSecretPaths env a order n))
       = dispatch_calls a L fields) /\
  (forall L, L ∉ order ->
     updates_for L (trace_of (renewSecretPaths env a order n)) = []).
Proof.
  split; [|intros L HL; by apply updates_for_pass_absent].
  revert n Hret. induction order as [|path rest IH]; intros n Hret i L Hi;
    [done|].
  apply NoDup_cons in Hdistinct as [Hfresh Hdistinct].
  revert Hret. rewrite renewSecretPaths_cons. unfold bind, outcome_of, trace_of.
  destruct (pass_step env a path n) as [[[u|msg|] t] n1] eqn:Hstep;
    try done.
  apply pass_step_returned_inv in Hstep as (fields & Hrd & -> & _ & ->).
  pose proof (updates_for_pass_absent env a rest (S n) path Hfresh) as Habs.
  specialize (IH Hdistinct (S n)). unfold outcome_of, trace_of in IH, Habs.
  destruct (renewSecretPaths env a rest (S n)) as [[r t2] n2].
  cbn [fst snd] in *. intros [= ->].
  change (EvRead path :: ?x) with ([EvRead path] ++ x).
  rewrite !updates_for_app.
  change (updates_for L [EvRead path]) with (@nil Event).
  change (updates_for L [EvLog "INFO" "renewSecrets" path])
    with (@nil Event).
  cbn [app]. rewrite app_nil_r.
  destruct i as [|j]; cbn in Hi.
  - injection Hi as <-. exists fields. rewrite Nat.add_0_r. split; [done|].
    by rewrite updates_for_dispatch_same, Habs, app_nil_r.
  - assert (path <> L) as Hne.
    { intros ->. apply Hfresh. by apply list_elem_of_lookup_2 with j. }
    destruct (IH eq_refl j L Hi) as (f & Hf & Hups). exists f.
    replace (n + S j)%nat with (S n + j)%nat by lia. split; [done|].
    by rewrite updates_for_dispatch_other.
Qed.

Lemma pass_dispatches_each_location_once_witness :
  NoDup ["secrets/data/x/y"] /\
  exists fields,
    readable (Ex.env "userpass" 30) (0 + 0) "secrets/data/x/y" fields /\
    updates_for "secrets/data/x/y"
      (trace_of (renewSecretPaths (Ex.env "userpass" 30) (Ex.agent_xy 30)
                   ["secrets/data/x/y"] 0%nat))
    = dispatch_calls (Ex.agent_xy 30) "secrets/data/x/y" fields.
Proof.
  assert (NoDup ["secrets/data/x/y"]) as Hnd
    by (apply (bool_decide_unpack _); vm_compute; exact I).
  split; [exact Hnd|].
  exact (proj1 (pass_dispatches_each_location_once
                  (Ex.env "userpass" 30) (Ex.agent_xy 30)
                  ["secrets/data/x/y"] 0%nat Hnd eq_refl)
           0%nat "secrets/data/x/y" eq_refl).
Defined.

(** X8.  With a configuration in place, a pass returns exactly when every
    location, at the moment it is read, answers with a secret whose
    ["data"] entry is a map; any other answer makes it panic. *)
Theorem pass_returns_iff
    (env : Env) (a : Agent) (order : list string) (n : nat)
    (Hcfg : is_Some (cfg a)) :
  outcome_of (renewSecretPaths env a order n) = Returned tt <->
  (forall (i : nat) L, order !! i = Some L ->
     exists fields, readable env (n + i) L fields).
Proof.
  destruct Hcfg as [c Hc].
  revert n. induction order as [|path rest IH]; intros n; [done|].
  rewrite renewSecretPaths_cons. unfold bind, outcome_of. split.
  - destruct (pass_step env a path n) as [[[u|msg|] t] n1] eqn:Hstep;
      try done.
    apply pass_step_returned_inv in Hstep as (fields & Hrd & -> & _ & ->).
    specialize (IH (S n)). unfold outcome_of in IH.
    destruct (renewSecretPaths env a rest (S n)) as [[r t2] n2].
    cbn [fst snd] in *. intros [= ->] [|j] L Hi; cbn in Hi.
    + injection Hi as <-. exists fields. by rewrite Nat.add_0_r.
    + replace (n + S j)%nat with (S n + j)%nat by lia.
      by apply (proj1 IH eq_refl).
  - intros Hall. destruct (Hall 0%nat path eq_refl) as (fields & s & Hs & Hd).
    rewrite Nat.add_0_r in Hs.
    unfold pass_step. rewrite Hs, Hd, Hc.
    specialize (IH (S n)). unfold outcome_of in IH.
    destruct (renewSecretPaths env a rest (S n)) as [[r t2] n2].
    cbn [fst snd] in *. f_equal. apply IH. intros j L Hj.
    replace (S n + j)%nat with (n + S j)%nat by lia. by apply Hall.
Qed.

Lemma pass_returns_iff_witness :
  outcome_of (renewSecretPaths (Ex.env "userpass" 30) (Ex.agent_two_paths 30)
                ["secrets/data/x/y"; "secrets/data/locked"] 0%nat)
  <> Returned tt.
Proof.
  intros Hret.
  destruct (proj1 (pass_returns_iff (Ex.env "userpass" 30)
                     (Ex.agent_two_paths 30)
                     ["secrets/data/x/y"; "secrets/data/locked"] 0%nat
                     (ex_intro _ _ eq_refl)) Hret
              1%nat "secrets/data/locked" eq_refl)
    as (fields & s & Hs & _).
  discriminate Hs.
Defined.

Lemma renewSecretPaths_app env a pre rest n t n1 :
  renewSecretPaths env a pre n = (Returned tt, t, n1) ->
  renewSecretPaths env a (pre ++ rest) n
  = ((renewSecretPaths env a rest n1).1.1,
     t ++ (renewSecretPaths env a rest n1).1.2,
     (renewSecretPaths env a rest n1).2).
Proof.
  revert n t. induction pre as [|path pre IH]; intros n t.
  - intros H. change (renewSecretPaths env a [] n) with (ret tt n) in H.
    injection H as <- <-. cbn [app].
    by destruct (renewSecretPaths env a rest n) as [[r t'] n'].
  - cbn [app]. rewrite !renewSecretPaths_cons. intros H.
    apply bind_returned_inv in H as ([] & ta & na & tb & Hx & Hrest & ->).
    rewrite (bind_returned _ _ _ _ _ _ Hx), (IH _ _ Hrest).
    cbn [fst snd]. by rewrite app_assoc.
Qed.

(** X9.  A pass stops at the first answer it cannot use: a nil secret
    (with or without an error, as when nothing is stored at the path) or
    a secret without a ["data"] map.  The locations visited before it are
    dispatched in full, the read of the offending location is the last
    event, and the locations after it are not read. *)
Theorem pass_stops_at_unusable_answer
    (env : Env) (a : Agent) (pre : list string) (path : string)
    (rest : list string) (n n1 : nat) (t : list Event) (msg : string)
    (Hpre : renewSecretPaths env a pre n = (Returned tt, t, n1))
    (Hbad : unusable env n1 path msg) :
  renewSecretPaths env a (pre ++ path :: rest) n
  = (Panicked msg, t ++ [EvRead path], S n1).
Proof.
  rewrite (renewSecretPaths_app _ _ _ _ _ _ _ Hpre).
  assert (renewSecretPaths env a (path :: rest) n1
          = (Panicked msg, [EvRead path], S n1)) as ->; [|done].
  rewrite renewSecretPaths_cons. apply bind_panicked.
  unfold unusable in Hbad. unfold pass_step.
  destruct (Logical_Read env n1 path) as [[s|] err]; cbn [fst snd] in *;
    [|by subst].
  destruct Hbad as [-> Hnomap].
  destruct (Data s !! "data") as [[| | | | |fields]|] eqn:Hd; try done.
  by destruct (Hnomap fields).
Qed.

Lemma pass_stops_at_unusable_answer_witness :
  renewSecretPaths Ex2.env_flat (Ex.agent_two_paths 30)
    ([] ++ "secrets/data/x/y" :: ["secrets/data/locked"]) 0%nat
  = (Panicked bad_assert, [] ++ [EvRead "secrets/data/x/y"], 1%nat) /\
  renewSecretPaths Ex2.env_not_found (Ex.agent_two_paths 30)
    ([] ++ "secrets/data/x/y" :: ["secrets/data/locked"]) 0%nat
  = (Panicked nil_deref, [] ++ [EvRead "secrets/data/x/y"], 1%nat).
Proof.
  split.
  - apply (pass_stops_at_unusable_answer Ex2.env_flat); [reflexivity|].
    split; [reflexivity|]. intros fields. vm_compute. discriminate.
  - apply (pass_stops_at_unusable_answer Ex2.env_not_found);
      reflexivity.
Defined.

(* ===================================================================== *)
(** ** More on New *)
(* ===================================================================== *)

(** Case analysis on what the environment answers, one call at a time. *)
Ltac case_scrutinee :=
  match goal with
  | |- context [match ?x with _ => _ end] =>
      lazymatch x with
      | context [match _ with _ => _ end] => fail
      | _ => destruct x eqn:?
      end
  end.

Ltac case_scrutinee_in H :=
  match type of H with
  | context [match ?x with _ => _ end] =>
      lazymatch x with
      | context [match _ with _ => _ end] => fail
      | _ => destruct x eqn:?
      end
  end.

(** An event of another kind is not in an explicit trace. *)
Ltac absent_from_trace H :=
  repeat (apply elem_of_cons in H as [H|H]; [discriminate H|]);
  by apply elem_of_nil in H.

(** X10.  [New] never waits and never reads a secret; it logs in at most
    once; when it returns, it returns either an agent or an error, never
    both and never neither; and it binds a token to the client only on
    the path that returns the agent. *)
Theorem New_agent_or_error
    (env : Env) (fns : list AgentOptFunc) (n : nat) :
  outcome_of (New env fns n) <> Blocked /\
  (New env fns n).2 = n /\
  reads_of (trace_of (New env fns n)) = [] /\
  (count_events is_login (trace_of (New env fns n)) <= 1)%nat /\
  (forall oa oe, outcome_of (New env fns n) = Returned (oa, oe) ->
     (is_Some oa <-> oe = None) /\
     (forall tok, EvSetToken tok ∈ trace_of (New env fns n) -> is_Some oa)).
Proof.
  unfold New, loadConfig, createVaultAgent, login_case, outcome_of, trace_of.
  fold (applied_opts fns). run_agent.
  repeat case_scrutinee;
    cbn [fst snd app];
    (split; [done|]); (split; [done|]); (split; [reflexivity|]);
    (split; [cbn; lia|]);
    intros oa oe Hout; try discriminate Hout;
    injection Hout as <- <-; split.
  all: first
    [ by split; [intros [? [=]]|intros [=]]
    | by split; [|eexists]
    | intros tok Hin; absent_from_trace Hin
    | intros tok _; by eexists ].
Qed.

(** X11.  If [New] returns an agent, every step succeeded: the file was
    there and decoded, the method is one of the three the [switch] knows,
    the client was created, the credentials of the configuration were
    accepted by exactly one login, and the agent holds the decoded
    configuration, the login's secret, a client carrying the token taken
    from that secret, the options as applied, and an empty registry. *)
Theorem New_success_inv
    (env : Env) (fns : list AgentOptFunc) (n n' : nat) (a : Agent)
    (oe : option error) (tr : list Event)
    (Hnew : New env fns n = (Returned (Some a, oe), tr, n')) :
  os_IsNotExist (os_Stat env (configFile (applied_opts fns))) = false /\
  count_events is_login tr = 1%nat /\
  exists c cl mk h tok,
    hclsimple_DecodeFile env (configFile (applied_opts fns)) = (c, None) /\
    vault_NewClient env (Server (Vault c)) = (Some cl, None) /\
    auth_constructor env (AuthMethod (Vault c)) = Some mk /\
    mk (Username (Vault c)) (Password (Vault c)) = (h, None) /\
    Auth_Login env (Some cl) h = (secret a, None) /\
    Secret_TokenID env (secret a) = (tok, None) /\
    a = {| opts := applied_opts fns; cfg := Some c;
           client := Some {| Address := Address cl; Token := tok |};
           secret := secret a; secretSync := newSecretSync |}.
Proof.
  unfold New, loadConfig, createVaultAgent, login_case in Hnew.
  fold (applied_opts fns) in Hnew.
  cbv [bind emit ret deref panic fst snd
       opts cfg client secret secretSync set_cfg set_client set_secret]
    in Hnew.
  cbn [app] in Hnew.
  repeat case_scrutinee_in Hnew; cbn [fst snd app] in Hnew;
    try discriminate Hnew;
    injection Hnew as <- <- <- <-;
    (split; [done|]); (split; [reflexivity|]);
    eexists _, _, _, _, _; cbn [secret];
    (split; [reflexivity|]); (split; [eassumption|]);
    (split;
     [unfold auth_constructor;
      repeat match goal with
             | H : String.eqb _ _ = _ |- _ => rewrite H; clear H
             end; reflexivity|]);
    (split; [eassumption|]); (split; [eassumption|]);
    (split; [eassumption|]); reflexivity.
Qed.

Lemma New_success_inv_witness :
  exists a tr,
    New (Ex.env "ldap" 30) [WithConfigFile "config.hcl"] 0%nat
    = (Returned (Some a, None), tr, 0%nat) /\
    count_events is_login tr = 1%nat /\
    client a
    = Some {| Address := "http://localhost:8200"; Token := "s.token" |}.
Proof.
  eexists _, _. split; [vm_compute; reflexivity|].
  match goal with
  | |- count_events _ ?tr = _ /\ client ?a = _ =>
      destruct (New_success_inv (Ex.env "ldap" 30)
                  [WithConfigFile "config.hcl"] 0%nat 0%nat a None tr
                  ltac:(vm_compute; reflexivity))
        as (_ & Hlogin & _)
  end.
  split; [exact Hlogin|reflexivity].
Defined.

(** X12.  A configuration file that is there but does not decode makes
    [New] return the decoder's error, wrapped with the file name, and no
    agent; nothing is attempted after the decode: no client, no login. *)
Theorem New_malformed_config
    (env : Env) (fns : list AgentOptFunc) (n : nat) (c : config)
    (err : error)
    (Hstat : os_IsNotExist (os_Stat env (configFile (applied_opts fns)))
             = false)
    (Hdecode : hclsimple_DecodeFile env (configFile (applied_opts fns))
               = (c, Some err)) :
  New env fns n
  = (Returned
       (None,
        Some ("failed to load configuration file "
              +:+ configFile (applied_opts fns) +:+ ":" +:+ err)),
     [EvLog "INFO" "NewAgent" (configFile (applied_opts fns));
      EvStat (configFile (applied_opts fns));
      EvDecodeFile (configFile (applied_opts fns))], n).
Proof.
  unfold New, loadConfig. fold (applied_opts fns). run_agent.
  rewrite Hstat, Hdecode. reflexivity.
Qed.

Lemma New_malformed_config_witness :
  New Ex2.env_malformed [WithConfigFile "config.hcl"] 0%nat
  = (Returned
       (None,
        Some ("failed to load configuration file " +:+ "config.hcl" +:+ ":"
              +:+ "config.hcl:3,3-4: Unsupported argument")),
     [EvLog "INFO" "NewAgent" "config.hcl"; EvStat "config.hcl";
      EvDecodeFile "config.hcl"], 0%nat).
Proof.
  exact (New_malformed_config Ex2.env_malformed [WithConfigFile "config.hcl"]
           0%nat _ _ eq_refl eq_refl).
Defined.

Lemma applied_opts_snoc fns fn :
  applied_opts (fns ++ [fn]) = fn (applied_opts fns).
Proof. unfold applied_opts. by rewrite fold_left_app. Qed.

(** X13.  Of several [WithConfigFile] options the last one decides; with
    none, the file is ["vault-config.hcl"].  That file is what [New] logs
    and passes to [os.Stat] before anything else. *)
Theorem New_uses_last_config_file
    (env : Env) (files : list string) (n : nat) :
  chosen_file files = default "vault-config.hcl" (last files) /\
  exists rest,
    trace_of (New env (WithConfigFile <$> files) n)
    = EvLog "INFO" "NewAgent" (chosen_file files)
        :: EvStat (chosen_file files) :: rest.
Proof.
  split.
  - unfold chosen_file. induction files as [|f files _] using rev_ind;
      [done|].
    rewrite last_snoc, fmap_app.
    change (WithConfigFile <$> [f]) with [WithConfigFile f].
    by rewrite applied_opts_snoc.
  - unfold chosen_file, New, loadConfig, createVaultAgent, login_case,
      trace_of.
    fold (applied_opts (WithConfigFile <$> files)). run_agent.
    repeat case_scrutinee; cbn [fst snd app]; eexists; reflexivity.
Qed.

(* ===================================================================== *)
(** ** More on the two loops *)
(* ===================================================================== *)

Lemma count_events_app p t1 t2 :
  count_events p (t1 ++ t2) = (count_events p t1 + count_events p t2)%nat.
Proof. unfold count_events. by rewrite List.filter_app, length_app. Qed.

Lemma count_events_none p t :
  Forall (fun e => p e = false) t -> count_events p t = 0%nat.
Proof.
  unfold count_events. induction 1 as [|e t He _ IH]; [done|].
  cbn. by rewrite He.
Qed.

(** A pass emits none of the events of a kind its events never have. *)
Lemma pass_lacks p env a order n :
  (forall e, pass_event_ok env a order n e -> p e = false) ->
  count_events p (trace_of (renewSecretPaths env a order n)) = 0%nat.
Proof.
  intros Hp. apply count_events_none.
  eapply Forall_impl; [apply renewSecretPaths_events|]. exact Hp.
Qed.

Lemma renewAuthToken_loop_done pre rest err n t m :
  renewAuthToken_loop pre n = (Blocked, t, m) ->
  renewAuthToken_loop (pre ++ AuthDoneCh err :: rest) n
  = (Returned err,
     t ++ [EvWatcherDone;
           EvLog "INFO" "renewAuthToken" "renewal of auth token failed"], m).
Proof.
  revert t. induction pre as [|[|err'|info] pre IH]; intros t.
  - cbn. by intros [= <- <-].
  - done.
  - done.
  - cbn [app]. rewrite !renewAuthToken_loop_renew.
    destruct (RenewedSecret info) as [s|]; [|done].
    destruct (Auth s) as [au|]; [|done].
    destruct (renewAuthToken_loop pre n) as [[r t'] n'] eqn:Hpre.
    cbn [fst snd]. intros [= -> <- ->]. by rewrite (IH t').
Qed.

(** X14.  When the lease loop is waiting in its [select] and the watcher's
    done channel delivers, the loop returns what the watcher delivered, as
    it is (nil included), after logging, stopping the watcher and
    signalling the wait group; what the runtime would have delivered
    later is never looked at. *)
Theorem lease_loop_returns_watcher_outcome
    (env : Env) (a : Agent) (pre rest : list AuthSelect)
    (err : option error) (n m : nat) (t : list Event)
    (Hwait : renewAuthToken env a pre n = (Blocked, t, m)) :
  renewAuthToken env a (pre ++ AuthDoneCh err :: rest) n
  = (Returned err,
     t ++ [EvWatcherDone;
           EvLog "INFO" "renewAuthToken" "renewal of auth token failed";
           EvWatcherStop; EvWgDone], m).
Proof.
  rewrite renewAuthToken_unfold in Hwait |- *.
  destruct (Client_NewLifetimeWatcher env (client a) (secret a)); [done|].
  destruct (renewAuthToken_loop pre n) as [[[u|msg|] t0] n'] eqn:Hloop;
    try done.
  injection Hwait as <- <-.
  rewrite (renewAuthToken_loop_done _ rest err _ _ _ Hloop).
  cbn [app]. by rewrite <- app_assoc.
Qed.

Lemma lease_loop_returns_watcher_outcome_witness :
  renewAuthToken (Ex.env "userpass" 30) (Ex.agent 30)
    ([AuthRenewCh {| RenewedSecret := Some Ex.login_secret |}]
       ++ AuthDoneCh (Some "lease expired") :: [AuthCtxDone]) 0%nat
  = (Returned (Some "lease expired"),
     [EvNewWatcher; EvGo GoWatcherStart; EvWatcherRenew;
      EvLog "INFO" "renewAuthToken" "renewed"]
     ++ [EvWatcherDone;
         EvLog "INFO" "renewAuthToken" "renewal of auth token failed";
         EvWatcherStop; EvWgDone], 0%nat).
Proof.
  apply (lease_loop_returns_watcher_outcome (Ex.env "userpass" 30)
           (Ex.agent 30)).
  vm_compute. reflexivity.
Defined.

(** X15.  Renewals never end the lease loop: with the watcher created,
    after any number of renewal notices carrying their auth data the loop
    has logged each one and is waiting again, with the watcher running
    and the wait group not signalled. *)
Theorem lease_loop_keeps_watching
    (env : Env) (a : Agent) (infos : list RenewOutput) (n : nat)
    (Hwatcher : Client_NewLifetimeWatcher env (client a) (secret a) = None)
    (Hinfos : Forall (fun info =>
                        exists s au, RenewedSecret info = Some s /\
                                     Auth s = Some au) infos) :
  renewAuthToken env a (AuthRenewCh <$> infos) n
  = (Blocked,
     EvNewWatcher :: EvGo GoWatcherStart
       :: (infos ≫= fun _ => [EvWatcherRenew;
                              EvLog "INFO" "renewAuthToken" "renewed"]),
     n).
Proof.
  rewrite renewAuthToken_unfold, Hwatcher.
  assert (renewAuthToken_loop (AuthRenewCh <$> infos) n
          = (Blocked,
             infos ≫= (fun _ => [EvWatcherRenew;
                                 EvLog "INFO" "renewAuthToken" "renewed"]),
             n)) as ->; [|done].
  induction Hinfos as [|info infos (s & au & Hs & Hau) _ IH]; [done|].
  rewrite fmap_cons, renewAuthToken_loop_renew, Hs, Hau, IH. reflexivity.
Qed.

Lemma lease_loop_keeps_watching_witness :
  renewAuthToken (Ex.env "userpass" 30) (Ex.agent 30)
    (AuthRenewCh <$> [{| RenewedSecret := Some Ex.login_secret |};
                      {| RenewedSecret := Some Ex.login_secret |}]) 0%nat
  = (Blocked,
     [EvNewWatcher; EvGo GoWatcherStart;
      EvWatcherRenew; EvLog "INFO" "renewAuthToken" "renewed";
      EvWatcherRenew; EvLog "INFO" "renewAuthToken" "renewed"], 0%nat).
Proof.
  apply (lease_loop_keeps_watching (Ex.env "userpass" 30) (Ex.agent 30)
           [{| RenewedSecret := Some Ex.login_secret |};
            {| RenewedSecret := Some Ex.login_secret |}] 0%nat eq_refl).
  repeat constructor; by eexists _, _.
Defined.

Lemma renewAuthToken_loop_lacks sched n :
  Forall (fun e => is_wg_done e = false /\ is_watcher_stop e = false /\
                   is_watcher_start e = false)
    (trace_of (renewAuthToken_loop sched n)).
Proof.
  induction sched as [|[|err|info] rest IH].
  - constructor.
  - by repeat constructor.
  - by repeat constructor.
  - rewrite renewAuthToken_loop_renew. unfold trace_of in *.
    destruct (RenewedSecret info) as [s|]; [|by repeat constructor].
    destruct (Auth s) as [au|]; [|by repeat constructor].
    cbn [fst snd]. by repeat constructor.
Qed.

Lemma renewSecrets_loop_lacks env a d sched n :
  count_events is_wg_done (trace_of (renewSecrets_loop env a d sched n))
  = 0%nat.
Proof.
  revert n. induction sched as [|[|order] rest IH]; intros n; [done|done|].
  rewrite renewSecrets_loop_timer.
  pose proof (pass_lacks is_wg_done env a order n) as Hpass.
  unfold trace_of in *.
  destruct (renewSecretPaths env a order n) as [[[u|msg|] t] n'];
    cbn [fst snd] in *;
    change (EvTimerC :: ?x) with ([EvTimerC] ++ x);
    rewrite ?count_events_app;
    try change (EvTimerReset d :: ?x) with ([EvTimerReset d] ++ x);
    rewrite ?count_events_app, ?IH, Hpass; try done;
    intros e; by destruct e.
Qed.

Lemma renewAuthToken_done_count env a sched n :
  count_events is_wg_done (trace_of (renewAuthToken env a sched n))
  = match outcome_of (renewAuthToken env a sched n) with
    | Blocked => 0%nat
    | _ => 1%nat
    end /\
  count_events is_watcher_stop (trace_of (renewAuthToken env a sched n))
  = match outcome_of (renewAuthToken env a sched n) with
    | Blocked => 0%nat
    | _ => count_events is_watcher_start
             (trace_of (renewAuthToken env a sched n))
    end.
Proof.
  rewrite renewAuthToken_unfold. unfold trace_of, outcome_of.
  destruct (Client_NewLifetimeWatcher env (client a) (secret a)); [done|].
  pose proof (renewAuthToken_loop_lacks sched n) as Hl. unfold trace_of in Hl.
  assert (count_events is_wg_done (renewAuthToken_loop sched n).1.2 = 0%nat
          /\ count_events is_watcher_stop (renewAuthToken_loop sched n).1.2
             = 0%nat
          /\ count_events is_watcher_start (renewAuthToken_loop sched n).1.2
             = 0%nat) as (Hd & Hs & Hg).
  { repeat split; apply count_events_none;
      (eapply Forall_impl; [exact Hl|]); by intros e (? & ? & ?). }
  destruct (renewAuthToken_loop sched n) as [[[u|msg|] t] n'];
    cbn [fst snd] in *;
    change (EvNewWatcher :: EvGo GoWatcherStart :: ?x)
      with ([EvNewWatcher; EvGo GoWatcherStart] ++ x);
    rewrite ?count_events_app, Hd, Hs, ?Hg; done.
Qed.

Lemma renewSecrets_done_count env a sched n :
  count_events is_wg_done (trace_of (renewSecrets env a sched n))
  = match outcome_of (renewSecrets env a sched n) with
    | Blocked => 0%nat
    | _ => 1%nat
    end.
Proof.
  destruct (cfg a) as [c|] eqn:Hc.
  - rewrite (renewSecrets_unfold _ _ _ _ _ Hc). cbv zeta.
    pose proof (renewSecrets_loop_lacks env a
                  (time.seconds (RenewSecretsPeriod (Vault c))) sched n)
      as Hl.
    unfold trace_of, outcome_of in *.
    destruct (renewSecrets_loop env a _ sched n) as [[[u|msg|] t] n'];
      cbn [fst snd] in *;
      change (EvNewTimer ?d :: ?x) with ([EvNewTimer d] ++ x);
      rewrite ?count_events_app, Hl; done.
  - unfold renewSecrets. rewrite Hc. reflexivity.
Qed.

(** X16.  Each loop signals the wait group exactly once when it ends,
    whatever ends it (cancellation, the watcher's verdict, a watcher that
    cannot be created, a panic), and never while it is still waiting; the
    lease loop stops its watcher exactly when it had started one. *)
Theorem loops_signal_done_once
    (env : Env) (a : Agent) (s1 : list AuthSelect) (s2 : list SecretsSelect)
    (n : nat) :
  count_events is_wg_done (trace_of (renewAuthToken env a s1 n))
  = match outcome_of (renewAuthToken env a s1 n) with
    | Blocked => 0%nat
    | _ => 1%nat
    end /\
  count_events is_watcher_stop (trace_of (renewAuthToken env a s1 n))
  = match outcome_of (renewAuthToken env a s1 n) with
    | Blocked => 0%nat
    | _ => count_events is_watcher_start
             (trace_of (renewAuthToken env a s1 n))
    end /\
  count_events is_wg_done (trace_of (renewSecrets env a s2 n))
  = match outcome_of (renewSecrets env a s2 n) with
    | Blocked => 0%nat
    | _ => 1%nat
    end.
Proof.
  destruct (renewAuthToken_done_count env a s1 n) as [H1 H2].
  split; [exact H1|]. split; [exact H2|]. apply renewSecrets_done_count.
Qed.

Lemma renewSecrets_loop_rearms env a d sched n :
  count_events is_timer_receive
    (trace_of (renewSecrets_loop env a d sched n))
  = (count_events is_timer_reset
       (trace_of (renewSecrets_loop env a d sched n))
     + match outcome_of (renewSecrets_loop env a d sched n) with
       | Panicked _ => 1
       | _ => 0
       end)%nat.
Proof.
  revert n. induction sched as [|[|order] rest IH]; intros n; [done|done|].
  rewrite renewSecrets_loop_timer.
  assert (count_events is_timer_receive
            (trace_of (renewSecretPaths env a order n)) = 0%nat) as Hrecv
    by (apply pass_lacks; intros e; by destruct e).
  assert (count_events is_timer_reset
            (trace_of (renewSecretPaths env a order n)) = 0%nat) as Hreset
    by (apply pass_lacks; intros e; by destruct e).
  pose proof (renewSecretPaths_not_blocked env a order n) as Hnb.
  unfold trace_of, outcome_of in *.
  destruct (renewSecretPaths env a order n) as [[[u|msg|] t] n'];
    cbn [fst snd] in *; [| |done].
  - specialize (IH n').
    destruct (renewSecrets_loop env a d rest n') as [[r t'] n''].
    cbn [fst snd] in *.
    change (EvTimerC :: t ++ EvTimerReset d :: t')
      with ([EvTimerC] ++ t ++ [EvTimerReset d] ++ t').
    rewrite !count_events_app, IH, Hrecv, Hreset. cbn. lia.
  - change (EvTimerC :: t) with ([EvTimerC] ++ t).
    rewrite !count_events_app, Hrecv, Hreset. cbn. lia.
Qed.

(** X17.  The refresh loop rearms its timer after every pass that
    returns: in the trace of the loop the receives from the timer channel
    and the resets are equal in number while the loop is waiting or has
    returned, and a loop ended by a panic has exactly one receive (the
    pass that panicked) without its reset. *)
Theorem refresh_loop_rearms_after_each_pass
    (env : Env) (a : Agent) (sched : list SecretsSelect) (n : nat)
    (c : config) (Hcfg : cfg a = Some c) :
  count_events is_timer_receive (trace_of (renewSecrets env a sched n))
  = (count_events is_timer_reset (trace_of (renewSecrets env a sched n))
     + match outcome_of (renewSecrets env a sched n) with
       | Panicked _ => 1
       | _ => 0
       end)%nat.
Proof.
  rewrite (renewSecrets_unfold _ _ _ _ _ Hcfg). cbv zeta.
  pose proof (renewSecrets_loop_rearms env a
                (time.seconds (RenewSecretsPeriod (Vault c))) sched n) as Hl.
  unfold trace_of, outcome_of in *.
  destruct (renewSecrets_loop env a _ sched n) as [[[u|msg|] t] n'];
    cbn [fst snd] in *;
    change (EvNewTimer ?d :: ?x) with ([EvNewTimer d] ++ x);
    rewrite ?count_events_app, Hl; cbn; lia.
Qed.

Lemma refresh_loop_rearms_after_each_pass_witness :
  count_events is_timer_receive
    (trace_of (renewSecrets (Ex.env "userpass" 30) (Ex.agent_two_paths 30)
                 [SecretsTimerC ["secrets/data/x/y"];
                  SecretsTimerC ["secrets/data/x/y"; "secrets/data/locked"];
                  SecretsCtxDone] 0%nat))
  = (count_events is_timer_reset
       (trace_of (renewSecrets (Ex.env "userpass" 30)
                    (Ex.agent_two_paths 30)
                    [SecretsTimerC ["secrets/data/x/y"];
                     SecretsTimerC
                       ["secrets/data/x/y"; "secrets/data/locked"];
                     SecretsCtxDone] 0%nat))
     + 1)%nat.
Proof.
  exact (refresh_loop_rearms_after_each_pass (Ex.env "userpass" 30)
           (Ex.agent_two_paths 30) _ 0%nat _ eq_refl).
Defined.

Lemma wg_added_app t1 t2 : wg_added (t1 ++ t2) = wg_added t1 + wg_added t2.
Proof.
  induction t1 as [|e t1 IH]; [done|]. cbn [app wg_added].
  destruct e; rewrite ?IH; lia.
Qed.

Lemma wg_added_pass env a order n :
  wg_added (trace_of (renewSecretPaths env a order n)) = 0.
Proof.
  pose proof (renewSecretPaths_events env a order n) as Hev.
  induction Hev as [|e t He _ IH]; [done|].
  cbn [wg_added]. by destruct e.
Qed.

(** X18.  [Run] adds to the wait group what the two loops give back:
    whether the initial pass returns or panics, [Run] has added two, and
    the two loops, once both have ended, have signalled twice between
    them. *)
Theorem wait_group_balanced
    (env : Env) (a : Agent) (s1 : list AuthSelect) (s2 : list SecretsSelect)
    (order : list string) (n m1 m2 : nat)
    (Hended1 : outcome_of (renewAuthToken env a s1 m1) <> Blocked)
    (Hended2 : outcome_of (renewSecrets env a s2 m2) <> Blocked) :
  wg_added (trace_of (Run env a s1 s2 order n))
  = Z.of_nat
      (count_events is_wg_done (trace_of (renewAuthToken env a s1 m1))
       + count_events is_wg_done (trace_of (renewSecrets env a s2 m2))).
Proof.
  destruct (renewAuthToken_done_count env a s1 m1) as [-> _].
  rewrite renewSecrets_done_count.
  assert (wg_added (trace_of (Run env a s1 s2 order n)) = 2) as ->.
  { rewrite Run_unfold. pose proof (wg_added_pass env a order n) as Hp.
    unfold trace_of in *.
    destruct (renewSecretPaths env a order n) as [[[u|msg|] t] n'];
      cbn [fst snd] in *; rewrite wg_added_app, Hp; reflexivity. }
  destruct (outcome_of (renewAuthToken env a s1 m1)); try done;
    destruct (outcome_of (renewSecrets env a s2 m2)); done.
Qed.

Lemma wait_group_balanced_witness :
  wg_added
    (trace_of (Run (Ex.env "userpass" 30) (Ex.agent_two_paths 30)
                 [AuthCtxDone] [SecretsCtxDone]
                 ["secrets/data/locked"; "secrets/data/x/y"] 0%nat))
  = Z.of_nat
      (count_events is_wg_done
         (trace_of (renewAuthToken (Ex.env "userpass" 30)
                      (Ex.agent_two_paths 30) [AuthCtxDone] 0%nat))
       + count_events is_wg_done
           (trace_of (renewSecrets (Ex.env "userpass" 30)
                        (Ex.agent_two_paths 30) [SecretsCtxDone] 0%nat))).
Proof.
  apply (wait_group_balanced (Ex.env "userpass" 30) (Ex.agent_two_paths 30));
    vm_compute; discriminate.
Defined.

(* ===================================================================== *)
(** ** The receivers of the example program *)
(* ===================================================================== *)

Lemma UpdateSecret_id r i f v :
  Example.id (Example.UpdateSecret r i f v) = Example.id r.
Proof.
  unfold Example.UpdateSecret.
  destruct (negb _); [done|]. destruct (String.eqb f "user").
  - destruct v; try done. by destruct (negb _).
  - destruct (String.eqb f "password"); [|done].
    destruct v; try done. by destruct (negb _).
Qed.

(** X19.  A receiver of the example ignores, without any report, an
    update for a location that is not its own, a field other than ["user"]
    and ["password"], and a value that is not a string; no update ever
    changes the location it listens to. *)
Theorem UpdateSecret_ignores
    (r : Example.redis) (i f : string) (v : value) :
  Example.id (Example.UpdateSecret r i f v) = Example.id r /\
  (i <> Example.id r -> Example.UpdateSecret r i f v = r) /\
  (f <> "user" -> f <> "password" -> Example.UpdateSecret r i f v = r) /\
  ((forall s, v <> VString s) -> Example.UpdateSecret r i f v = r).
Proof.
  split; [apply UpdateSecret_id|]. unfold Example.UpdateSecret.
  split; [|split].
  - intros Hne. destruct (String.eqb_spec (Example.id r) i); [|done].
    by destruct Hne.
  - intros Hu Hp. destruct (negb _); [done|].
    destruct (String.eqb_spec f "user"); [done|].
    by destruct (String.eqb_spec f "password").
  - intros Hv. destruct (negb _); [done|].
    destruct (String.eqb f "user"); [|destruct (String.eqb f "password")];
      try done; destruct v; try done; by destruct (Hv s).
Qed.

Lemma UpdateSecret_ignores_witness :
  Example.UpdateSecret
    {| Example.id := "secrets/data/netpush/redis"; Example.user := "u";
       Example.password := "p" |}
    "secrets/data/netpush/netbox" "user" (VString "x")
  = {| Example.id := "secrets/data/netpush/redis"; Example.user := "u";
       Example.password := "p" |}.
Proof.
  refine (proj1 (proj2 (UpdateSecret_ignores
           {| Example.id := "secrets/data/netpush/redis";
              Example.user := "u"; Example.password := "p" |}
           "secrets/data/netpush/netbox" "user" (VString "x"))) _).
  cbn. discriminate.
Defined.

Lemma UpdateSecret_user r x :
  Example.UpdateSecret r (Example.id r) "user" (VString x)
  = {| Example.id := Example.id r; Example.user := x;
       Example.password := Example.password r |}.
Proof.
  unfold Example.UpdateSecret. rewrite String.eqb_refl. cbn.
  destruct (String.eqb_spec (Example.user r) x) as [<-|]; [|done].
  by destruct r.
Qed.

Lemma UpdateSecret_password r x :
  Example.UpdateSecret r (Example.id r) "password" (VString x)
  = {| Example.id := Example.id r; Example.user := Example.user r;
       Example.password := x |}.
Proof.
  unfold Example.UpdateSecret. rewrite String.eqb_refl. cbn.
  destruct (String.eqb_spec (Example.password r) x) as [<-|]; [|done].
  by destruct r.
Qed.

(** X20.  For its own location a receiver of the example stores a string
    sent as ["user"] or ["password"] and leaves the other field alone;
    receiving the same update again changes nothing, and updates of the
    two fields can arrive in either order. *)
Theorem UpdateSecret_stores
    (r : Example.redis) (u p : string) :
  Example.UpdateSecret r (Example.id r) "user" (VString u)
  = {| Example.id := Example.id r; Example.user := u;
       Example.password := Example.password r |} /\
  Example.UpdateSecret r (Example.id r) "password" (VString p)
  = {| Example.id := Example.id r; Example.user := Example.user r;
       Example.password := p |} /\
  Example.UpdateSecret
    (Example.UpdateSecret r (Example.id r) "user" (VString u))
    (Example.id r) "user" (VString u)
  = Example.UpdateSecret r (Example.id r) "user" (VString u) /\
  Example.UpdateSecret
    (Example.UpdateSecret r (Example.id r) "user" (VString u))
    (Example.id r) "password" (VString p)
  = Example.UpdateSecret
      (Example.UpdateSecret r (Example.id r) "password" (VString p))
      (Example.id r) "user" (VString u).
Proof.
  destruct r as [i us pw]. unfold Example.UpdateSecret.
  cbn [Example.id Example.user Example.password].
  rewrite !String.eqb_refl.
  change (String.eqb "user" "user") with true.
  change (String.eqb "password" "user") with false.
  change (String.eqb "password" "password") with true.
  cbn [negb].
  destruct (String.eqb_spec us u) as [->|Hu],
    (String.eqb_spec pw p) as [->|Hp];
    cbn [negb Example.id Example.user Example.password];
    rewrite ?String.eqb_refl; cbn [negb];
    repeat match goal with
           | |- context [String.eqb ?x ?y] =>
               destruct (String.eqb_spec x y); try done
           end;
    done.
Qed.

Lemma deliver_cons tbl e tr :
  Example.deliver tbl (e :: tr)
  = Example.deliver
      match e with
      | EvUpdateSecret r i f v =>
          alter (fun s => Example.UpdateSecret s i f v) r tbl
      | _ => tbl
      end tr.
Proof. reflexivity. Qed.

(** One field of one struct across a trace: when every update the trace
    makes to that field of that struct carries the string [x], and there
    is at least one unless the field holds [x] already, the field ends up
    holding [x]. *)
Lemma deliver_field (get : Example.redis -> string) (f x : string)
    (h : SecretReceiver) (L : string) :
  (forall r, Example.id r = L ->
             get (Example.UpdateSecret r L f (VString x)) = x) ->
  (forall r i f' v, Example.id r = L -> i <> L \/ f' <> f ->
                    get (Example.UpdateSecret r i f' v) = get r) ->
  forall tr tbl r0,
    tbl !! h = Some r0 -> Example.id r0 = L ->
    (forall v, EvUpdateSecret h L f v ∈ tr -> v = VString x) ->
    (get r0 = x \/ exists v, EvUpdateSecret h L f v ∈ tr) ->
    exists r, Example.deliver tbl tr !! h = Some r /\ Example.id r = L /\
              get r = x.
Proof.
  intros Hset Hkeep. induction tr as [|e tr IH]; intros tbl r0 Hh Hid Hall Hsome.
  - exists r0. destruct Hsome as [Hx|[v Hv]]; [done|].
    by apply elem_of_nil in Hv.
  - rewrite deliver_cons.
    assert (forall v, EvUpdateSecret h L f v ∈ tr -> v = VString x) as Hall'.
    { intros v Hv. apply Hall. apply elem_of_cons. by right. }
    destruct e as [| | | | | | | | |r i f' v'| | | | | | | | | | |];
      try (apply (IH tbl r0 Hh Hid Hall');
           destruct Hsome as [Hx|[v Hv]]; [by left|right; exists v];
           by apply elem_of_cons in Hv as [[=]|Hv]).
    destruct (decide (r = h)) as [->|Hr].
    + destruct (decide (i = L /\ f' = f)) as [[-> ->]|Hother].
      * assert (v' = VString x) as ->.
        { apply Hall. apply elem_of_cons. by left. }
        apply (IH _ (Example.UpdateSecret r0 L f (VString x))).
        -- by rewrite lookup_alter_eq, Hh.
        -- by rewrite UpdateSecret_id.
        -- done.
        -- left. by apply Hset.
      * assert (i <> L \/ f' <> f) as Hne.
        { destruct (decide (i = L)) as [->|]; [|by left].
          right. intros ->. by apply Hother. }
        apply (IH _ (Example.UpdateSecret r0 i f' v')).
        -- by rewrite lookup_alter_eq, Hh.
        -- by rewrite UpdateSecret_id.
        -- done.
        -- destruct Hsome as [Hx|[v Hv]].
           ++ left. by rewrite Hkeep.
           ++ right. exists v.
              apply elem_of_cons in Hv as [[= <- <- <-]|Hv]; [|done].
              by destruct Hother.
    + apply (IH _ r0).
      * by rewrite lookup_alter_ne.
      * done.
      * done.
      * destruct Hsome as [Hx|[v Hv]]; [by left|right; exists v].
        apply elem_of_cons in Hv as [[= -> _ _ _]|Hv]; [|done].
        by destruct Hr.
Qed.

Lemma NoDup_fst_unique {A} (l : list (string * A)) k v1 v2 :
  NoDup l.*1 -> (k, v1) ∈ l -> (k, v2) ∈ l -> v1 = v2.
Proof.
  induction l as [|[k' v'] l IH]; intros Hnd H1 H2.
  - by apply elem_of_nil in H1.
  - rewrite fmap_cons in Hnd. apply NoDup_cons in Hnd as [Hfresh Hnd].
    cbn in Hfresh.
    apply elem_of_cons in H1 as [H1|H1];
      apply elem_of_cons in H2 as [H2|H2].
    + congruence.
    + injection H1 as -> ->. destruct Hfresh.
      apply list_elem_of_fmap. by exists (k', v2).
    + injection H2 as -> ->. destruct Hfresh.
      apply list_elem_of_fmap. by exists (k', v1).
    + by apply IH.
Qed.

(** X21.  The promise of the example: a struct of the example program
    registered for its own location, at which the store holds a string
    ["user"] and a string ["password"], holds exactly those two strings
    once [Run] has returned, whatever it held before, whatever else is
    registered, and in whatever order fields and locations were
    visited. *)
Theorem Run_delivers_credentials
    (env : Env) (a : Agent) (s1 : list AuthSelect) (s2 : list SecretsSelect)
    (order : list string) (n n' : nat) (e : option error) (tr : list Event)
    (h : SecretReceiver) (L : string) (fields : list (string * value))
    (u p : string) (tbl : gmap SecretReceiver Example.redis)
    (r0 : Example.redis)
    (Horder : forall L', is_Some (receivers (secretSync a) !! L') ->
                         L' ∈ order)
    (Hreg : h ∈ receivers_at a L)
    (Hstruct : tbl !! h = Some r0)
    (Hid : Example.id r0 = L)
    (Hstore : forall m, readable env m L fields)
    (Hkeys : NoDup fields.*1)
    (Huser : ("user", VString u) ∈ fields)
    (Hpassword : ("password", VString p) ∈ fields)
    (Hrun : Run env a s1 s2 order n = (Returned e, tr, n')) :
  Example.deliver tbl tr !! h
  = Some {| Example.id := L; Example.user := u; Example.password := p |}.
Proof.
  assert (L ∈ order) as HL.
  { apply Horder. unfold receivers_at in Hreg.
    destruct (receivers (secretSync a) !! L); [done|].
    by apply elem_of_nil in Hreg. }
  rewrite Run_unfold in Hrun.
  pose proof (renewSecretPaths_events env a order n) as Hev.
  unfold trace_of in Hev. rewrite Forall_forall in Hev.
  destruct (renewSecretPaths env a order n) as [[[[]|msg|] t] n1] eqn:Hpass;
    try discriminate.
  injection Hrun as _ <- <-. cbn [fst snd] in Hev.
  destruct (renewSecretPaths_returned_inv _ _ _ _ _ _ _ Hpass L HL)
    as (pre & post & m & fields' & Ht & Hrd & _).
  assert (fields' = fields) as -> by (eapply readable_unique; eauto).
  assert (forall k v, EvUpdateSecret h L k v ∈ t -> (k, v) ∈ fields) as Hin.
  { intros k v Hkv. apply Hev in Hkv as (_ & _ & m' & f' & _ & Hrd' & Hkv).
    by rewrite (readable_unique _ _ _ _ _ (Hstore m') Hrd'). }
  assert (forall k v, (k, v) ∈ fields -> EvUpdateSecret h L k v ∈ t) as Hout.
  { intros k v Hkv. rewrite Ht. apply elem_of_app. right.
    apply elem_of_cons. right. apply elem_of_app. left.
    apply elem_of_dispatch_calls. by exists h, k, v. }
  destruct (deliver_field Example.user "user" u h L) with (tr := t)
    (tbl := tbl) (r0 := r0) as (ru & Hru & Hidu & Huu); try done.
  { intros r Hr. rewrite <- Hr. by rewrite UpdateSecret_user. }
  { intros r i f' v Hr [Hi|Hf]; unfold Example.UpdateSecret.
    - destruct (String.eqb_spec (Example.id r) i); [congruence|done].
    - destruct (negb _); [done|].
      destruct (String.eqb_spec f' "user"); [done|].
      destruct (String.eqb f' "password"); [|done].
      destruct v; try done. by destruct (negb _). }
  { intros v Hv. apply Hin in Hv.
    by apply (NoDup_fst_unique fields "user"). }
  { right. exists (VString u). by apply Hout. }
  destruct (deliver_field Example.password "password" p h L) with (tr := t)
    (tbl := tbl) (r0 := r0) as (rp & Hrp & _ & Hpp); try done.
  { intros r Hr. rewrite <- Hr. by rewrite UpdateSecret_password. }
  { intros r i f' v Hr [Hi|Hf]; unfold Example.UpdateSecret.
    - destruct (String.eqb_spec (Example.id r) i); [congruence|done].
    - destruct (negb _); [done|].
      destruct (String.eqb f' "user").
      + destruct v; try done. by destruct (negb _).
      + by destruct (String.eqb_spec f' "password"). }
  { intros v Hv. apply Hin in Hv.
    by apply (NoDup_fst_unique fields "password"). }
  { right. exists (VString p). by apply Hout. }
  change (Example.deliver tbl ?x) with (Example.deliver tbl t).
  rewrite Hru in Hrp. injection Hrp as <-. rewrite Hru.
  destruct ru as [i us pw]. cbn in *. by subst.
Qed.

Lemma Run_delivers_credentials_witness :
  Example.deliver Ex2.tbl
    (trace_of (Run (Ex.env "userpass" 30) (Ex.agent_xy 30) [] []
                 ["secrets/data/x/y"] 0%nat))
    !! 1%nat
  = Some {| Example.id := "secrets/data/x/y"; Example.user := "alice";
            Example.password := "p1" |}.
Proof.
  refine (Run_delivers_credentials (Ex.env "userpass" 30) (Ex.agent_xy 30)
            [] [] ["secrets/data/x/y"] 0%nat 1%nat None _ 1%nat
            "secrets/data/x/y" Ex.fields_xy "alice" "p1" Ex2.tbl _
            _ _ eq_refl eq_refl _ _ _ _ _).
  - intros L' [l Hl].
    destruct (decide (L' = "secrets/data/x/y")) as [->|Hne].
    + apply list_elem_of_In. left. reflexivity.
    + unfold Ex.agent_xy, RegisterUpdateSecret in Hl. cbn in Hl.
      rewrite !lookup_insert_ne in Hl by done.
      by rewrite lookup_empty in Hl.
  - apply list_elem_of_In. left. reflexivity.
  - intros m. exists Ex.secret_xy. split; reflexivity.
  - apply (bool_decide_unpack _). vm_compute. exact I.
  - apply list_elem_of_In. left. reflexivity.
  - apply list_elem_of_In. right. left. reflexivity.
  - vm_compute. reflexivity.
Defined.

(* ===================================================================== *)
(** ** From New to Run *)
(* ===================================================================== *)

Lemma New_agent_has_config env fns n n' a oe tr :
  New env fns n = (Returned (Some a, oe), tr, n') ->
  is_Some (cfg a) /\ receivers (secretSync a) = ∅.
Proof.
  intros Hnew.
  unfold New, loadConfig, createVaultAgent, login_case in Hnew.
  fold (applied_opts fns) in Hnew.
  cbv [bind emit ret deref panic fst snd
       opts cfg client secret secretSync set_cfg set_client set_secret]
    in Hnew.
  cbn [app] in Hnew.
  repeat case_scrutinee_in Hnew; cbn [fst snd app] in Hnew;
    try discriminate Hnew;
    injection Hnew as <- <- <- <-; (split; [by eexists|done]).
Qed.

Lemma register_all_cfg a regs : cfg (register_all a regs) = cfg a.
Proof.
  revert a. induction regs as [|[L c] regs IH]; intros a; [done|].
  unfold register_all in *. cbn [foldl fst snd]. by rewrite IH.
Qed.

(** X22.  The way the package is meant to be used: on an agent returned
    by [New], after any registrations, [Run] returns nil whenever the
    store answers every registered location with a field map, and the
    receiver map it walks holds exactly the registered locations. *)
Theorem Run_after_New_returns
    (env : Env) (fns : list AgentOptFunc) (n n1 n2 : nat) (a : Agent)
    (oe : option error) (tr : list Event)
    (regs : list (string * SecretReceiver)) (order : list string)
    (s1 : list AuthSelect) (s2 : list SecretsSelect)
    (Hnew : New env fns n = (Returned (Some a, oe), tr, n1))
    (Horder : forall L, L ∈ order -> L ∈ regs.*1)
    (Hstore : forall L m, L ∈ regs.*1 ->
                          exists fields, readable env m L fields) :
  outcome_of (Run env (register_all a regs) s1 s2 order n2) = Returned None /\
  (forall L, is_Some (receivers (secretSync (register_all a regs)) !! L)
             <-> L ∈ regs.*1).
Proof.
  destruct (New_agent_has_config _ _ _ _ _ _ _ Hnew) as [Hcfg Hempty].
  split.
  - rewrite Run_unfold.
    assert (outcome_of (renewSecretPaths env (register_all a regs) order n2)
            = Returned tt) as Hpass.
    { apply renewSecretPaths_returns; [by rewrite register_all_cfg|].
      intros L m HL. apply Hstore. by apply Horder. }
    unfold outcome_of in *.
    destruct (renewSecretPaths env (register_all a regs) order n2)
      as [[[u|msg|] t] n']; by try discriminate.
  - intros L. rewrite lookup_register_all, Hempty, lookup_empty.
    assert (registered_for L regs <> [] <-> L ∈ regs.*1) as Hin.
    { clear. induction regs as [|[L' c'] regs IH]; [set_solver|].
      rewrite registered_for_cons, fmap_cons, elem_of_cons. cbn [fst].
      destruct (decide (L' = L)) as [->|Hne]; cbn [app].
      - split; [by left|done].
      - rewrite IH. split; [by right|]. by intros [->|?]. }
    rewrite <- Hin. destruct (registered_for L regs).
    + split; [by intros [? ?]|done].
    + split; [done|by eexists].
Qed.

Lemma Run_after_New_returns_witness :
  exists a tr,
    New (Ex.env "userpass" 30) [WithConfigFile "config.hcl"] 0%nat
    = (Returned (Some a, None), tr, 0%nat) /\
    outcome_of
      (Run (Ex.env "userpass" 30)
         (register_all a [("secrets/data/x/y", 1%nat);
                          ("secrets/data/x/y", 2%nat)])
         [] [] ["secrets/data/x/y"] 0%nat)
    = Returned None.
Proof.
  eexists _, _. split; [vm_compute; reflexivity|].
  match goal with
  | |- outcome_of (Run _ (register_all ?a _) _ _ _ _) = _ =>
      refine (proj1 (Run_after_New_returns (Ex.env "userpass" 30)
                       [WithConfigFile "config.hcl"] 0%nat 0%nat 0%nat a
                       None _ _ ["secrets/data/x/y"] [] []
                       ltac:(vm_compute; reflexivity) _ _))
  end.
  - intros L HL. apply list_elem_of_In in HL as [<-|[]].
    apply list_elem_of_In. left. reflexivity.
  - intros L m HL. apply list_elem_of_In in HL as [HL|[HL|[]]];
      cbn in HL; subst L; exists Ex.fields_xy, Ex.secret_xy;
      split; reflexivity.
Defined.
